(** * A shallow embedding of the QOI decoder of [pkg/qoi/decoder.go]

    The file follows the Go source function by function: [DecodeConfig],
    [decodePixels] (its loop body is [pixel]) and [Decode].

    Conventions.
    - A Go [uint8] is a [Z] in [0, 256); every [uint8] operation of the
      source writes its wrap-around out ([add8], [sub8]).
    - The [io.Reader] is an in-memory reader over the bytes that are still
      unread (the behaviour of Go's [bytes.Reader]): a [Read] into a non-empty
      slice at the end of the data returns [io.EOF], and otherwise copies as
      many bytes as are there, up to the length of the slice, with a nil
      error.
    - [decodePixels] keeps pointers ([last], the entries of [seen], [pix])
      to [[4]uint8] arrays that live either in the package-level variables
      [startPixel] and [zeroPixel] or inside [img.Pix]; the model keeps the
      same pointers and one store, so a read through a pointer sees every
      earlier write.
    - Go's [int] is taken to be 64 bits wide, and [make] to find the
      memory it asks for; [image.NewNRGBA] panics when the size of the
      image does not fit an [int].
    - The package's constants, its two pixel variables and [hashPix] are
      declared in another file of the package; they are modelled from the
      spec, each under a comment that says so. *)

From Stdlib Require Import ZArith Lia.
From Stdlib Require Import Strings.Byte.
From stdpp Require Import base tactics option list.

Local Open Scope Z_scope.

(** ** Bytes and [uint8] arithmetic *)

Definition u8 (b : byte) : Z := Z.of_N (Byte.to_N b).

Definition wrap8 (z : Z) : Z := z mod 256.
Definition add8 (a b : Z) : Z := wrap8 (a + b).
Definition sub8 (a b : Z) : Z := wrap8 (a - b).

(** ** Errors and results *)

Inductive error : Type :=
| EOF                                 (* io.EOF *)
| ErrUnexpectedEOF                    (* io.ErrUnexpectedEOF *)
| ErrInvalidMagic (actual : list Z)
| ErrInvalidRunLength (actual : Z)
| ErrInvalidEOF (actual : list Z).

(** The spec's [UnexpectedEnd]: the error of a read that the source could
    not serve. *)
Definition UnexpectedEnd (e : error) : Prop := e = EOF ∨ e = ErrUnexpectedEOF.

(** A computation over a store [S]: it returns normally, returns a Go
    [error], or panics; the store at that moment is kept in every case. *)
Inductive outcome (S : Type) : Type :=
| Ok (s : S)
| Err (e : error) (s : S)
| Panic (s : S).
Arguments Ok {S} s.
Arguments Err {S} e s.
Arguments Panic {S} s.

Definition bind {S : Type} (m : outcome S) (k : S → outcome S) : outcome S :=
  match m with
  | Ok s => k s
  | Err e s => Err e s
  | Panic s => Panic s
  end.

(** [for i := start; i < start + n; i++ { body }] *)
Fixpoint for_range {S : Type} (n : nat) (i : Z) (body : Z → S → outcome S)
    (s : S) : outcome S :=
  match n with
  | O => Ok s
  | Datatypes.S k => bind (body i s) (for_range k (i + 1) body)
  end.

(** ** The reader *)

(** [r.Read(p)] with [len(p) = n] and [0 < n]: [None] is [(0, io.EOF)],
    [Some (bs, r')] is [(len(bs), nil)] with [bs] copied to the front of
    [p]. *)
Definition Read (n : nat) (r : list byte) : option (list byte * list byte) :=
  match r with
  | [] => None
  | _ => Some (take n r, drop n r)
  end.

(** [io.ReadAtLeast(r, buf, min)] with [len(buf) = min] and [0 < min], on
    this reader: the data that is there is read, and a short count becomes
    [io.EOF] when nothing was read and [io.ErrUnexpectedEOF] otherwise. *)
Definition ReadAtLeast (min : nat) (r : list byte)
    : error + (list byte * list byte) :=
  match Read min r with
  | None => inl EOF
  | Some (bs, r') =>
      if decide (length bs = min) then inr (bs, r') else inl ErrUnexpectedEOF
  end.

(** ** Constants of the package *)

(** Modelled from the spec: the constant [Magic], the four bytes of the
    ASCII text qoif. *)
Definition Magic : list Z := [113; 111; 105; 102].

(** Modelled from the spec: the op-code tags [opRgb], [opRgba], [opIndex],
    [opDiff], [opLuma], [opRun] and the mask [op2Mask] of the two top bits. *)
Definition opRgb : Z := 254.
Definition opRgba : Z := 255.
Definition op2Mask : Z := 192.
Definition opIndex : Z := 0.
Definition opDiff : Z := 64.
Definition opLuma : Z := 128.
Definition opRun : Z := 192.

(** Modelled from the spec: the end marker [eof], seven zero bytes and a
    one. *)
Definition eof : list Z := [0; 0; 0; 0; 0; 0; 0; 1].

(** The package-level variables [startPixel] and [zeroPixel]. *)
Record globals : Type := Globals {
  startPixel : list Z;
  zeroPixel : list Z
}.

(** Modelled from the spec: the values the package gives [startPixel]
    (the first last pixel) and [zeroPixel] (every cache slot at the start). *)
Definition init_globals : globals :=
  {| startPixel := [0; 0; 0; 255]; zeroPixel := [0; 0; 0; 0] |}.

(** ** Images *)

(** [image.Config], the two fields the decoder uses. *)
Record Config : Type := MkConfig { Width : Z; Height : Z }.

(** [image.NRGBA] over the rectangle [(0,0)-(RectX, RectY)]. *)
Record NRGBA : Type := MkNRGBA {
  Pix : list Z;
  Stride : Z;
  RectX : Z;
  RectY : Z
}.

Definition maxInt : Z := 2 ^ 63 - 1.

(** [image.NewNRGBA(image.Rect(0, 0, w, h))] for [0 <= w] and [0 <= h]:
    it panics when [4 * w * h] does not fit an [int]. *)
Definition NewNRGBA (w h : Z) : option NRGBA :=
  if 4 * w * h <=? maxInt
  then Some {| Pix := replicate (Z.to_nat (4 * w * h)) 0;
               Stride := 4 * w; RectX := w; RectY := h |}
  else None.

(** [p.PixOffset(x, y)] *)
Definition PixOffset (p : NRGBA) (x y : Z) : Z :=
  (y - 0) * Stride p + (x - 0) * 4.

(** ** The store of [decodePixels] *)

(** A pointer to a [[4]uint8]. *)
Inductive ptr : Type :=
| PStart              (* &startPixel *)
| PZero               (* &zeroPixel *)
| PImg (off : nat).   (* the array at img.Pix[off : off+4 : off+4] *)

Global Instance ptr_inhabited : Inhabited ptr := populate PZero.
Global Instance ptr_eq_dec : EqDecision ptr.
Proof. solve_decision. Defined.

Record dstate : Type := MkState {
  glob : globals;
  img : NRGBA;
  rd : list byte;      (* what the reader has not handed out yet *)
  last : ptr;
  buf : list Z;
  run : Z;
  seen : list ptr
}.

Definition set_rd (r : list byte) (s : dstate) : dstate :=
  {| glob := glob s; img := img s; rd := r; last := last s; buf := buf s;
     run := run s; seen := seen s |}.
Definition set_last (p : ptr) (s : dstate) : dstate :=
  {| glob := glob s; img := img s; rd := rd s; last := p; buf := buf s;
     run := run s; seen := seen s |}.
Definition set_buf (b : list Z) (s : dstate) : dstate :=
  {| glob := glob s; img := img s; rd := rd s; last := last s; buf := b;
     run := run s; seen := seen s |}.
Definition set_run (n : Z) (s : dstate) : dstate :=
  {| glob := glob s; img := img s; rd := rd s; last := last s; buf := buf s;
     run := n; seen := seen s |}.
Definition set_seen (c : list ptr) (s : dstate) : dstate :=
  {| glob := glob s; img := img s; rd := rd s; last := last s; buf := buf s;
     run := run s; seen := c |}.
Definition set_pixels (px : list Z) (s : dstate) : dstate :=
  {| glob := glob s;
     img := {| Pix := px; Stride := Stride (img s);
               RectX := RectX (img s); RectY := RectY (img s) |};
     rd := rd s; last := last s; buf := buf s; run := run s; seen := seen s |}.
Definition set_glob (g : globals) (s : dstate) : dstate :=
  {| glob := g; img := img s; rd := rd s; last := last s; buf := buf s;
     run := run s; seen := seen s |}.

(** [p[k]] *)
Definition load (s : dstate) (p : ptr) (k : nat) : Z :=
  match p with
  | PStart => startPixel (glob s) !!! k
  | PZero => zeroPixel (glob s) !!! k
  | PImg off => Pix (img s) !!! (off + k)%nat
  end.

(** [p[k] = v] *)
Definition store (p : ptr) (k : nat) (v : Z) (s : dstate) : dstate :=
  match p with
  | PStart =>
      set_glob {| startPixel := <[k := v]> (startPixel (glob s));
                  zeroPixel := zeroPixel (glob s) |} s
  | PZero =>
      set_glob {| startPixel := startPixel (glob s);
                  zeroPixel := <[k := v]> (zeroPixel (glob s)) |} s
  | PImg off => set_pixels (<[(off + k)%nat := v]> (Pix (img s))) s
  end.

(** The four channels behind a pointer. *)
Definition pixel_at (s : dstate) (p : ptr) : list Z :=
  [load s p 0; load s p 1; load s p 2; load s p 3].

(** Modelled from the spec: the function [hashPix],
    [(r*3 + g*5 + b*7 + a*11) mod 64] of the pixel behind the pointer. *)
Definition hashPix (s : dstate) (p : ptr) : Z :=
  (load s p 0 * 3 + load s p 1 * 5 + load s p 2 * 7 + load s p 3 * 11) mod 64.

(** [r.Read(buf[lo:hi])] followed by [if err != nil { return nil, err }] *)
Definition read_buf (lo hi : nat) (s : dstate) : outcome dstate :=
  match Read (hi - lo) (rd s) with
  | None => Err EOF s
  | Some (bs, r') =>
      Ok (set_buf (take lo (buf s) ++ (u8 <$> bs)
                     ++ drop (lo + length bs) (buf s))
            (set_rd r' s))
  end.

(** [seen[i]], with Go's bounds check. *)
Definition seen_get (i : Z) (s : dstate) : option ptr :=
  seen s !! Z.to_nat i.

(** [seen[i] = p], with Go's bounds check. *)
Definition seen_put (i : Z) (p : ptr) (s : dstate) : outcome dstate :=
  if decide (Z.to_nat i < length (seen s))%nat
  then Ok (set_seen (<[Z.to_nat i := p]> (seen s)) s)
  else Panic s.

(** ** [DecodeConfig] *)

(** [binary.BigEndian.Uint32(b)] for a [b] of four bytes. *)
Definition Uint32 (b : list Z) : Z :=
  Z.lor (Z.lor (Z.lor (b !!! 3%nat) (Z.shiftl (b !!! 2%nat) 8))
           (Z.shiftl (b !!! 1%nat) 16))
    (Z.shiftl (b !!! 0%nat) 24).

Definition DecodeConfig (r : list byte) : error + (Config * list byte) :=
  match ReadAtLeast 14 r with
  | inl e => inl e
  | inr (bs, r') =>
      let buf := u8 <$> bs in
      if decide (take 4 buf = Magic)
      then inr ({| Width := Uint32 (take 4 (drop 4 buf));
                   Height := Uint32 (take 4 (drop 8 buf)) |}, r')
      else inl (ErrInvalidMagic (take 4 buf))
  end.

(** ** [decodePixels] *)

(** The body of the two nested loops, one pixel position. *)
Definition pixel (x y : Z) (s : dstate) : outcome dstate :=
  let off := PixOffset (img s) x y in
  (* pix := img.Pix[off : off+4 : off+4], as an array pointer *)
  if negb ((0 <=? off) && (off + 4 <=? Z.of_nat (length (Pix (img s)))))
  then Panic s
  else
  let pix := PImg (Z.to_nat off) in
  if 0 <? run s then
    (* handle other run iterations *)
    let s := set_run (sub8 (run s) 1) s in
    let s := store pix 0 (load s (last s) 0) s in
    let s := store pix 1 (load s (last s) 1) s in
    let s := store pix 2 (load s (last s) 2) s in
    let s := store pix 3 (load s (last s) 3) s in
    Ok s
  else
  (* decode new pixel *)
  bind (read_buf 0 1 s) (fun s =>
  let b0 := buf s !!! 0%nat in
  if b0 =? opRgb then
    bind (read_buf 1 4 s) (fun s =>
    let s := store pix 0 (buf s !!! 1%nat) s in
    let s := store pix 1 (buf s !!! 2%nat) s in
    let s := store pix 2 (buf s !!! 3%nat) s in
    let s := store pix 3 (load s (last s) 3) s in
    bind (seen_put (hashPix s pix) pix s) (fun s =>
    Ok (set_last pix s)))
  else if b0 =? opRgba then
    bind (read_buf 1 5 s) (fun s =>
    let s := store pix 0 (buf s !!! 1%nat) s in
    let s := store pix 1 (buf s !!! 2%nat) s in
    let s := store pix 2 (buf s !!! 3%nat) s in
    let s := store pix 3 (buf s !!! 4%nat) s in
    bind (seen_put (hashPix s pix) pix s) (fun s =>
    Ok (set_last pix s)))
  else if Z.land b0 op2Mask =? opIndex then
    match seen_get b0 s with
    | None => Panic s
    | Some c =>
        let s := store pix 0 (load s c 0) s in
        let s := store pix 1 (load s c 1) s in
        let s := store pix 2 (load s c 2) s in
        let s := store pix 3 (load s c 3) s in
        Ok (set_last pix s)
    end
  else if Z.land b0 op2Mask =? opDiff then
    let s := store pix 0
               (sub8 (add8 (load s (last s) 0) (Z.land (Z.shiftr b0 4) 3)) 2) s in
    let s := store pix 1
               (sub8 (add8 (load s (last s) 1) (Z.land (Z.shiftr b0 2) 3)) 2) s in
    let s := store pix 2
               (sub8 (add8 (load s (last s) 2) (Z.land (Z.shiftr b0 0) 3)) 2) s in
    let s := store pix 3 (load s (last s) 3) s in
    bind (seen_put (hashPix s pix) pix s) (fun s =>
    Ok (set_last pix s))
  else if Z.land b0 op2Mask =? opLuma then
    bind (read_buf 1 2 s) (fun s =>
    let b1 := buf s !!! 1%nat in
    let dg := sub8 (Z.land b0 63) 32 in
    let dr := add8 (sub8 (Z.shiftr (Z.land b1 240) 4) 8) dg in
    let db := add8 (sub8 (Z.shiftr (Z.land b1 15) 0) 8) dg in
    let s := store pix 0 (add8 (load s (last s) 0) dr) s in
    let s := store pix 1 (add8 (load s (last s) 1) dg) s in
    let s := store pix 2 (add8 (load s (last s) 2) db) s in
    let s := store pix 3 (load s (last s) 3) s in
    bind (seen_put (hashPix s pix) pix s) (fun s =>
    Ok (set_last pix s)))
  else if Z.land b0 op2Mask =? opRun then
    let s := set_run (add8 (Z.land b0 63) 1) s in
    if (62 <? run s) || (run s <? 1) then Err (ErrInvalidRunLength (run s)) s
    else
    (* first run iteration *)
    let s := set_run (sub8 (run s) 1) s in
    let s := store pix 0 (load s (last s) 0) s in
    let s := store pix 1 (load s (last s) 1) s in
    let s := store pix 2 (load s (last s) 2) s in
    let s := store pix 3 (load s (last s) 3) s in
    Ok s
  else Ok s).

(** [for x := 0; x < conf.Width; x++ { ... }] for the row [y]. *)
Definition row (conf : Config) (y : Z) (s : dstate) : outcome dstate :=
  for_range (Z.to_nat (Width conf)) 0 (fun x => pixel x y) s.

(** [for y := 0; y < conf.Height; y++ { ... }] *)
Definition rows (conf : Config) (s : dstate) : outcome dstate :=
  for_range (Z.to_nat (Height conf)) 0 (row conf) s.

(** The check of the end marker after the loops. *)
Definition check_eof (s : dstate) : outcome dstate :=
  bind (read_buf 0 8 s) (fun s =>
  if decide (buf s = eof) then Ok s else Err (ErrInvalidEOF (buf s)) s).

(** The locals of [decodePixels] before the loops. *)
Definition init_state (g : globals) (im : NRGBA) (r : list byte) : dstate :=
  {| glob := g; img := im; rd := r; last := PStart;
     buf := replicate 8 0; run := 0; seen := replicate 64 PZero |}.

(** What a call gives back to its caller. *)
Inductive result : Type :=
| Image (im : NRGBA)
| Error (e : error)
| Panicked.

Definition returned (o : outcome dstate) : globals * result :=
  match o with
  | Ok s => (glob s, Image (img s))
  | Err e s => (glob s, Error e)
  | Panic s => (glob s, Panicked)
  end.

Definition decodePixels (g : globals) (r : list byte) (conf : Config)
    : globals * result :=
  match NewNRGBA (Width conf) (Height conf) with
  | None => (g, Panicked)
  | Some im => returned (bind (rows conf (init_state g im r)) check_eof)
  end.

(** ** [Decode] *)

(** [Decode], run with the package-level variables holding [g]; it gives
    back what they hold when it returns. *)
Definition Decode_from (g : globals) (r : list byte) : globals * result :=
  match DecodeConfig r with
  | inl e => (g, Error e)
  | inr (conf, r') => decodePixels g r' conf
  end.

Definition Decode (r : list byte) : result := snd (Decode_from init_globals r).

(** ** The vocabulary of the statements *)

(** The cases of the [switch] in [decodePixels]. *)
Inductive opcode : Type := RGB | RGBA | INDEX | DIFF | LUMA | RUN.

(** The case that the op-code byte [b0] selects: the tests of the [switch],
    in its order. *)
Definition classify (b0 : Z) : option opcode :=
  if b0 =? opRgb then Some RGB
  else if b0 =? opRgba then Some RGBA
  else if Z.land b0 op2Mask =? opIndex then Some INDEX
  else if Z.land b0 op2Mask =? opDiff then Some DIFF
  else if Z.land b0 op2Mask =? opLuma then Some LUMA
  else if Z.land b0 op2Mask =? opRun then Some RUN
  else None.

(** What one pass through the loop body does: it continues a run, or reads
    an op-code. *)
Inductive kind : Type := Continue | Op (o : opcode).

Definition kind_of (s : dstate) : option kind :=
  if 0 <? run s then Some Continue
  else
    match rd s with
    | [] => None
    | b :: _ => Op <$> classify (u8 b)
    end.

(** The store that an outcome leaves. *)
Definition final {S : Type} (o : outcome S) : S :=
  match o with Ok s | Err _ s | Panic s => s end.

(** The previously decoded pixel. *)
Definition prev (s : dstate) : list Z := pixel_at s (last s).

(** The pixel hash of four channel values. *)
Definition hash (v : list Z) : Z :=
  (v !!! 0%nat * 3 + v !!! 1%nat * 5 + v !!! 2%nat * 7 + v !!! 3%nat * 11)
    mod 64.

(** The history cache as the 64 pixels its pointers lead to. *)
Definition cache (s : dstate) : list (list Z) := pixel_at s <$> seen s.

(** The pixel positions in the order of the loops, and the place of the
    pixel [(x, y)] in [img.Pix]. *)
Definition flat (conf : Config) (x y : Z) : Z := y * Width conf + x.
Definition inside (conf : Config) (x y : Z) : Prop :=
  0 ≤ x < Width conf ∧ 0 ≤ y < Height conf.
Definition pix_of (conf : Config) (x y : Z) : nat :=
  Z.to_nat (4 * flat conf x y).

(** [before conf s0 x y s]: the loops, started in [s0], come to the pixel
    [(x, y)] with the store [s]; [y] rows and then [x] pixels of the row [y]
    are done. *)
Definition before (conf : Config) (s0 : dstate) (x y : Z) (s : dstate)
    : Prop :=
  inside conf x y
  ∧ ∃ t, for_range (Z.to_nat y) 0 (row conf) s0 = Ok t
       ∧ for_range (Z.to_nat x) 0 (fun x => pixel x y) t = Ok s.

(** [decoding input conf x y s]: [Decode] of [input] parses the header
    [conf] and comes to the pixel [(x, y)] with the store [s]. *)
Definition decoding (input : list byte) (conf : Config) (x y : Z)
    (s : dstate) : Prop :=
  ∃ r' im,
    DecodeConfig input = inr (conf, r')
    ∧ NewNRGBA (Width conf) (Height conf) = Some im
    ∧ before conf (init_state init_globals im r') x y s.

(** What is left of the loops at the pixel [(x, y)], and after it. *)
Definition rest_after (conf : Config) (x y : Z) (s : dstate)
    : outcome dstate :=
  bind (for_range (Z.to_nat (Width conf - x - 1)) (x + 1)
          (fun x => pixel x y) s)
    (for_range (Z.to_nat (Height conf - y - 1)) (y + 1) (row conf)).

Definition rest_from (conf : Config) (x y : Z) (s : dstate)
    : outcome dstate :=
  bind (pixel x y s) (rest_after conf x y).

(** ** The loop body told by values *)

(** [below lim p]: the array behind [p] is a package-level variable or lies
    in [img.Pix] before the byte offset [lim]. *)
Definition below (lim : Z) (p : ptr) : Prop :=
  match p with
  | PImg o => Z.of_nat o + 4 ≤ lim
  | _ => True
  end.

(** The invariant of the loops before the pixel number [k]: the image has
    its size, and [last] and the cache point to package-level variables or
    to pixels that are already decoded. *)
Record wf (conf : Config) (k : Z) (s : dstate) : Prop := {
  wf_stride : Stride (img s) = 4 * Width conf;
  wf_pix : Z.of_nat (length (Pix (img s))) = 4 * Width conf * Height conf;
  wf_last : below (4 * k) (last s);
  wf_seen : Forall (below (4 * k)) (seen s);
  wf_seen_len : length (seen s) = 64%nat
}.

(** The four assignments [pix[0] = v0; ...; pix[3] = v3]. *)
Definition paint (o : nat) (v : list Z) (s : dstate) : dstate :=
  store (PImg o) 3 (v !!! 3%nat)
    (store (PImg o) 2 (v !!! 2%nat)
       (store (PImg o) 1 (v !!! 1%nat)
          (store (PImg o) 0 (v !!! 0%nat) s))).

(** The end of the RGB, RGBA, DIFF and LUMA cases: the pixel [v] is in
    the image at [o], the cache slot of its hash and [last] point to it. *)
Definition remember (o : nat) (v : list Z) (t : dstate) : dstate :=
  set_last (PImg o)
    (set_seen (<[Z.to_nat (hash v) := PImg o]> (seen t)) (paint o v t)).

Definition diff_pixel (b0 : Z) (p : list Z) : list Z :=
  [sub8 (add8 (p !!! 0%nat) (Z.land (Z.shiftr b0 4) 3)) 2;
   sub8 (add8 (p !!! 1%nat) (Z.land (Z.shiftr b0 2) 3)) 2;
   sub8 (add8 (p !!! 2%nat) (Z.land (Z.shiftr b0 0) 3)) 2;
   p !!! 3%nat].

Definition luma_pixel (b0 b1 : Z) (p : list Z) : list Z :=
  let dg := sub8 (Z.land b0 63) 32 in
  let dr := add8 (sub8 (Z.shiftr (Z.land b1 240) 4) 8) dg in
  let db := add8 (sub8 (Z.shiftr (Z.land b1 15) 0) 8) dg in
  [add8 (p !!! 0%nat) dr; add8 (p !!! 1%nat) dg; add8 (p !!! 2%nat) db;
   p !!! 3%nat].

(** The store once [r.Read(buf[:1])] has handed out the byte [b]. *)
Definition fetched (b : byte) (rest : list byte) (s : dstate) : dstate :=
  set_buf (u8 b :: drop 1 (buf s)) (set_rd rest s).

(** What [pixel] comes to when no pointer of the store leads into the four
    bytes being written; [pixel_step] proves the two equal under [wf]. *)
Definition step (conf : Config) (x y : Z) (s : dstate) : outcome dstate :=
  let o := pix_of conf x y in
  if 0 <? run s then Ok (paint o (prev s) (set_run (sub8 (run s) 1) s))
  else
    match rd s with
    | [] => Err EOF s
    | b :: rest =>
        let s1 := fetched b rest s in
        match classify (u8 b) with
        | Some RGB =>
            bind (read_buf 1 4 s1) (fun s2 =>
            Ok (remember o [buf s2 !!! 1%nat; buf s2 !!! 2%nat;
                            buf s2 !!! 3%nat; prev s !!! 3%nat] s2))
        | Some RGBA =>
            bind (read_buf 1 5 s1) (fun s2 =>
            Ok (remember o [buf s2 !!! 1%nat; buf s2 !!! 2%nat;
                            buf s2 !!! 3%nat; buf s2 !!! 4%nat] s2))
        | Some INDEX =>
            Ok (set_last (PImg o)
                  (paint o (pixel_at s (seen s !!! Z.to_nat (u8 b))) s1))
        | Some DIFF => Ok (remember o (diff_pixel (u8 b) (prev s)) s1)
        | Some LUMA =>
            bind (read_buf 1 2 s1) (fun s2 =>
            Ok (remember o (luma_pixel (u8 b) (buf s2 !!! 1%nat) (prev s)) s2))
        | Some RUN =>
            Ok (paint o (prev s) (set_run (Z.land (u8 b) 63) s1))
        | None => Ok s1
        end
    end.

(** [keeps s o]: the outcome [o] leaves the package-level variables as
    they are in [s]. *)
Definition keeps (s : dstate) (o : outcome dstate) : Prop :=
  glob (final o) = glob s.

(** [panics o]: the outcome [o] is a panic. *)
Definition panics {S : Type} (o : outcome S) : Prop :=
  match o with Panic _ => True | _ => False end.

(** [only_eof o]: if [o] is an error, the error is [io.EOF]. *)
Definition only_eof (o : outcome dstate) : Prop :=
  match o with Err e _ => e = EOF | _ => True end.

(** The stores of a run that the op-code byte [b], read at the pixel
    [(x, y)] in the store [s], starts: [in_run conf x y s b rest k t] holds
    of the store [t] before the pixel number [k]. *)
Definition in_run (conf : Config) (x y : Z) (s : dstate) (b : byte)
    (rest : list byte) (k : Z) (t : dstate) : Prop :=
  wf conf k t
  ∧ rd t = rest
  ∧ run t = Z.land (u8 b) 63 + 1 - (k - flat conf x y)
  ∧ last t = last s
  ∧ pixel_at t (last s) = prev s
  ∧ ∀ j, flat conf x y ≤ j < k → pixel_at t (PImg (Z.to_nat (4 * j))) = prev s.

(** ** Streams *)

(** A 1x1 image of one RGBA op-code, with any two last header bytes. *)
Definition rgba_stream (channels colorspace : byte) : list byte :=
  [x71; x6f; x69; x66; x00; x00; x00; x01; x00; x00; x00; x01;
   channels; colorspace;
   xff; x0a; x14; x1e; xff;
   x00; x00; x00; x00; x00; x00; x00; x01].

(** A 0x0 image whose end marker stops after three bytes. *)
Definition short_end_marker_stream : list byte :=
  [x71; x6f; x69; x66; x00; x00; x00; x00; x00; x00; x00; x00; x04; x00;
   x00; x00; x00].

(** A 0x5 image. *)
Definition empty_stream : list byte :=
  [x71; x6f; x69; x66; x00; x00; x00; x00; x00; x00; x00; x05; x04; x00;
   x00; x00; x00; x00; x00; x00; x00; x01].

(** A 4x1 image: an RGB op-code, a LUMA op-code, an INDEX op-code into the
    slot of the first pixel, and a RUN op-code of length 6 at the last
    pixel. *)
Definition example_stream : list byte :=
  [x71; x6f; x69; x66; x00; x00; x00; x04; x00; x00; x00; x01; x04; x00;
   xfe; x0a; x14; x1e;
   xa5; x9c;
   x09;
   xc5;
   x00; x00; x00; x00; x00; x00; x00; x01].

Definition example_conf : Config := {| Width := 4; Height := 1 |}.

Definition example_image : NRGBA :=
  {| Pix := replicate 16 0; Stride := 16; RectX := 4; RectY := 1 |}.

Definition example_start : dstate :=
  init_state init_globals example_image (drop 14 example_stream).

(** The store of the example before its pixel number [n]. *)
Definition example_at (n : nat) : dstate :=
  final (for_range n 0 (fun x => pixel x 0) example_start).

(** The reading of the spec that an op-code byte with the low six bits 63
    makes the decode fail with [ErrInvalidRunLength]. *)
Definition low_six_bits_63_fails_with_run_length : Prop :=
  ∀ input conf x y s b rest,
    decoding input conf x y s →
    run s = 0 →
    rd s = b :: rest →
    Z.land (u8 b) 63 = 63 →
    ∃ n, Decode input = Error (ErrInvalidRunLength n).

(** ** Headers, passes and accepted streams *)

(** A byte from its number. *)
Definition b8 (z : Z) : byte := default x00 (Byte.of_N (Z.to_N z)).

(** The four bytes of a [uint32], most significant first. *)
Definition be32 (n : Z) : list byte :=
  [b8 (n / 2 ^ 24 mod 256); b8 (n / 2 ^ 16 mod 256); b8 (n / 2 ^ 8 mod 256);
   b8 (n mod 256)].

(** The header that says width [w] and height [h]. *)
Definition header_of (w h : Z) (channels colorspace : byte) : list byte :=
  [x71; x6f; x69; x66] ++ be32 w ++ be32 h ++ [channels; colorspace].

(** The pass number [k] of the two loops: the pixel [(k mod W, k / W)]. *)
Definition pass (conf : Config) (k : Z) (s : dstate) : outcome dstate :=
  pixel (k mod Width conf) (k / Width conf) s.

(** [same_frame s o]: the outcome [o] leaves the rectangle, the stride and
    the length of the image of [s] as they are. *)
Definition same_frame (s : dstate) (o : outcome dstate) : Prop :=
  RectX (img (final o)) = RectX (img s)
  ∧ RectY (img (final o)) = RectY (img s)
  ∧ Stride (img (final o)) = Stride (img s)
  ∧ length (Pix (img (final o))) = length (Pix (img s)).

(** The eight bytes of the end marker. *)
Definition end_marker : list byte := [x00; x00; x00; x00; x00; x00; x00; x01].

(** [finishes input s]: [Decode] of [input] returns an image, and [s] is
    the store of [decodePixels] when it returns. *)
Definition finishes (input : list byte) (s : dstate) : Prop :=
  ∃ conf r' im,
    DecodeConfig input = inr (conf, r')
    ∧ NewNRGBA (Width conf) (Height conf) = Some im
    ∧ bind (rows conf (init_state init_globals im r')) check_eof = Ok s.

(** [buf] has its eight bytes; the last one is as [make] left it. *)
Definition buf_ok (s : dstate) : Prop :=
  length (buf s) = 8%nat ∧ buf s !! 7%nat = Some 0.


(** A 4x1 image: an RGB op-code, a RUN op-code of length 2 and a DIFF
    op-code. *)
Definition run_diff_stream : list byte :=
  [x71; x6f; x69; x66; x00; x00; x00; x04; x00; x00; x00; x01; x04; x00;
   xfe; x0a; x14; x1e;
   xc1;
   x7b;
   x00; x00; x00; x00; x00; x00; x00; x01].

(** The store of [stream], a 4x1 image, before its pixel number [n]. *)
Definition store_at (stream : list byte) (n : nat) : dstate :=
  final (for_range n 0 (fun x => pixel x 0)
           (init_state init_globals example_image (drop 14 stream))).

(** * Proofs *)

(** ** Loops *)

Section for_range.
Context {S : Type}.
Implicit Types (body : Z → S → outcome S) (s : S) (n : nat).

Lemma bind_Ok (m : outcome S) (k : S → outcome S) s' :
  bind m k = Ok s' ↔ ∃ s1, m = Ok s1 ∧ k s1 = Ok s'.
Proof.
  destruct m; simpl; split; eauto; try discriminate.
  - by intros (s1 & [= ->] & ?).
  - by intros (s1 & ? & ?).
  - by intros (s1 & ? & ?).
Qed.

Lemma bind_assoc (m : outcome S) (k1 k2 : S → outcome S) :
  bind (bind m k1) k2 = bind m (fun s => bind (k1 s) k2).
Proof. by destruct m. Qed.

Lemma for_range_add n m i body s :
  for_range (n + m) i body s
  = bind (for_range n i body s) (for_range m (i + Z.of_nat n) body).
Proof.
  revert i s. induction n as [|n IH]; intros i s.
  - simpl. by rewrite Z.add_0_r.
  - rewrite Nat.add_succ_l. simpl. destruct (body i s); simpl; try done.
    rewrite IH. do 2 f_equal. lia.
Qed.

Lemma for_range_inv (I : Z → S → Prop) n i body s s' :
  I i s →
  (∀ j t t', i ≤ j < i + Z.of_nat n → I j t → body j t = Ok t' → I (j + 1) t') →
  for_range n i body s = Ok s' →
  I (i + Z.of_nat n) s'.
Proof.
  revert i s. induction n as [|n IH]; intros i s Hi Hstep.
  - simpl. intros [= <-]. by rewrite Z.add_0_r.
  - simpl. intros (s1 & H1 & H2)%bind_Ok.
    replace (i + Z.of_nat (Datatypes.S n)) with (i + 1 + Z.of_nat n) by lia.
    eapply IH; [| |exact H2].
    + eapply Hstep; [lia|exact Hi|exact H1].
    + intros j t t' Hj. apply Hstep. lia.
Qed.

(** Whatever every run of the body keeps, the loop keeps, however it ends. *)
Lemma for_range_final (R : S → S → Prop) n i body s :
  (∀ t, R t t) → (∀ a b c, R a b → R b c → R a c) →
  (∀ j t, R t (final (body j t))) →
  R s (final (for_range n i body s)).
Proof.
  intros Hrefl Htrans Hbody. revert i s.
  induction n as [|n IH]; intros i s; simpl; [done|].
  specialize (Hbody i s). destruct (body i s) as [s1| |]; simpl in *; try done.
  eapply Htrans; [exact Hbody|apply IH].
Qed.

End for_range.

(** ** The store *)

Lemma below_mono lim lim' p : lim ≤ lim' → below lim p → below lim' p.
Proof. destruct p; simpl; lia. Qed.

Lemma load_store_below o k v s p j :
  below (Z.of_nat o) p → (j < 4)%nat →
  load (store (PImg o) k v s) p j = load s p j.
Proof.
  intros Hp Hj. destruct p as [| |o']; simpl in *; try done.
  apply list_lookup_total_insert_ne. lia.
Qed.

Lemma load_store_same o k v s :
  (o + k < length (Pix (img s)))%nat →
  load (store (PImg o) k v s) (PImg o) k = v.
Proof. intros H. simpl. by apply list_lookup_total_insert_eq. Qed.

Lemma load_store_other o k v s j :
  j ≠ k → load (store (PImg o) k v s) (PImg o) j = load s (PImg o) j.
Proof. intros H. simpl. apply list_lookup_total_insert_ne. lia. Qed.

Lemma length_store p k v s :
  length (Pix (img (store p k v s))) = length (Pix (img s)).
Proof. destruct p; simpl; try done. apply length_insert. Qed.

Lemma pixel_at_paint_below o v s p :
  below (Z.of_nat o) p → pixel_at (paint o v s) p = pixel_at s p.
Proof.
  intros Hp. unfold pixel_at, paint.
  by rewrite !load_store_below by (done || lia).
Qed.

Lemma pixel_at_paint o v s :
  length v = 4%nat → (o + 4 ≤ length (Pix (img s)))%nat →
  pixel_at (paint o v s) (PImg o) = v.
Proof.
  intros Hv Ho. destruct v as [|v0 [|v1 [|v2 [|v3 [|]]]]]; try done.
  unfold pixel_at, paint. cbn [lookup_total list_lookup_total].
  repeat first
    [ rewrite load_store_same by (rewrite ?length_store; lia)
    | rewrite load_store_other by lia ].
  done.
Qed.

Lemma length_paint o v s :
  length (Pix (img (paint o v s))) = length (Pix (img s)).
Proof. unfold paint. by rewrite !length_store. Qed.

Lemma hashPix_hash s p : hashPix s p = hash (pixel_at s p).
Proof. done. Qed.

Lemma rd_store p k v s : rd (store p k v s) = rd s.
Proof. by destruct p. Qed.
Lemma last_store p k v s : last (store p k v s) = last s.
Proof. by destruct p. Qed.
Lemma buf_store p k v s : buf (store p k v s) = buf s.
Proof. by destruct p. Qed.
Lemma run_store p k v s : run (store p k v s) = run s.
Proof. by destruct p. Qed.
Lemma seen_store p k v s : seen (store p k v s) = seen s.
Proof. by destruct p. Qed.
Lemma Stride_store p k v s : Stride (img (store p k v s)) = Stride (img s).
Proof. by destruct p. Qed.
Lemma glob_store o k v s : glob (store (PImg o) k v s) = glob s.
Proof. done. Qed.

Lemma load_set_run n s p j : load (set_run n s) p j = load s p j.
Proof. by destruct p. Qed.
Lemma load_set_last q s p j : load (set_last q s) p j = load s p j.
Proof. by destruct p. Qed.
Lemma load_set_seen c s p j : load (set_seen c s) p j = load s p j.
Proof. by destruct p. Qed.
Lemma load_set_rd r s p j : load (set_rd r s) p j = load s p j.
Proof. by destruct p. Qed.
Lemma load_set_buf b s p j : load (set_buf b s) p j = load s p j.
Proof. by destruct p. Qed.

Create Rewrite HintDb st.
Hint Rewrite rd_store last_store buf_store run_store seen_store Stride_store
  glob_store length_store load_set_run load_set_last load_set_seen load_set_rd
  load_set_buf : st.

Arguments store : simpl never.
Arguments load : simpl never.
Arguments wrap8 : simpl never.
Arguments add8 : simpl never.
Arguments sub8 : simpl never.
Arguments hashPix : simpl never.
Arguments hash : simpl never.
Arguments paint : simpl never.
Arguments seen_put : simpl never.
Arguments read_buf : simpl never.

Lemma read_buf_Ok lo hi s s1 :
  read_buf lo hi s = Ok s1 →
  ∃ bs r', Read (hi - lo) (rd s) = Some (bs, r')
    ∧ s1 = set_buf (take lo (buf s) ++ (u8 <$> bs) ++ drop (lo + length bs) (buf s))
             (set_rd r' s).
Proof.
  unfold read_buf. destruct (Read _ _) as [[bs r']|]; [|done].
  intros [= <-]. eauto.
Qed.

Lemma read_buf_shape lo hi s s1 :
  read_buf lo hi s = Ok s1 → ∃ B R, s1 = set_buf B (set_rd R s).
Proof. intros (bs & r' & _ & ->)%read_buf_Ok. eauto. Qed.

Lemma seen_put_Ok i p s :
  0 ≤ i < 64 → length (seen s) = 64%nat →
  seen_put i p s = Ok (set_seen (<[Z.to_nat i := p]> (seen s)) s).
Proof. intros Hi Hlen. unfold seen_put. rewrite decide_True; [done|lia]. Qed.

Lemma hash_range v : 0 ≤ hash v < 64.
Proof. unfold hash. apply Z.mod_pos_bound. lia. Qed.

Ltac norm :=
  repeat progress
    (cbn; autorewrite with st; rewrite ?load_store_below by (done || lia)).

Section step.
Context (conf : Config) (x y : Z) (s : dstate).
Hypothesis Hwf : wf conf (flat conf x y) s.
Hypothesis Hin : inside conf x y.

Lemma PixOffset_flat : PixOffset (img s) x y = 4 * flat conf x y.
Proof. unfold PixOffset, flat. rewrite (wf_stride _ _ _ Hwf). lia. Qed.

Lemma flat_bounds : 0 ≤ flat conf x y ∧ flat conf x y + 1 ≤ Width conf * Height conf.
Proof. destruct Hin. unfold flat. nia. Qed.

Lemma slice_ok :
  (0 <=? 4 * flat conf x y)
  && (4 * flat conf x y + 4 <=? Z.of_nat (length (Pix (img s)))) = true.
Proof.
  pose proof flat_bounds. rewrite (wf_pix _ _ _ Hwf).
  apply andb_true_intro; split; apply Z.leb_le; nia.
Qed.

Lemma pix_of_fits : (pix_of conf x y + 4 ≤ length (Pix (img s)))%nat.
Proof.
  pose proof flat_bounds. pose proof (wf_pix _ _ _ Hwf). unfold pix_of. nia.
Qed.

Lemma below_last : below (Z.of_nat (pix_of conf x y)) (last s).
Proof.
  pose proof flat_bounds. unfold pix_of. rewrite Z2Nat.id by lia.
  apply (wf_last _ _ _ Hwf).
Qed.

Lemma pixel_continue :
  0 < run s →
  pixel x y s
  = Ok (paint (pix_of conf x y) (prev s) (set_run (sub8 (run s) 1) s)).
Proof.
  intros Hrun. unfold pixel. rewrite PixOffset_flat, slice_ok. cbn [negb].
  apply Z.ltb_lt in Hrun. rewrite Hrun.
  pose proof below_last.
  unfold paint, prev, pixel_at. norm.
  done.
Qed.

(** The op-code byte has been read into [buf[0]]. *)
Context (b : byte) (rest : list byte).
Hypothesis Hrun : run s ≤ 0.
Hypothesis Hrd : rd s = b :: rest.

Let s1 := fetched b rest s.
Let pix := PImg (pix_of conf x y).

Lemma fetch_Ok : read_buf 0 1 s = Ok s1.
Proof. unfold read_buf. rewrite Hrd. done. Qed.

Ltac start :=
  unfold pixel; rewrite PixOffset_flat, slice_ok; cbn [negb];
  rewrite (proj2 (Z.ltb_ge 0 (run s)) Hrun), fetch_Ok; cbn [bind];
  change (buf s1 !!! 0%nat) with (u8 b).

(* the branches that end in [seen[hashPix(pix)] = pix; last = pix] *)
Ltac cached :=
  match goal with
  | |- _ = Ok (set_last _ (set_seen _ (paint ?o ?v ?t))) =>
      match goal with
      | |- context [seen_put (hashPix ?S _) _ _] =>
          change S with (paint o v t)
      end
  end;
  rewrite hashPix_hash, pixel_at_paint by (done || (autorewrite with st; lia));
  rewrite seen_put_Ok by (apply hash_range || (autorewrite with st; done));
  norm; done.

Ltac pick H :=
  unfold classify in H;
  repeat match type of H with
  | (if ?c then _ else _) = _ =>
      let E := fresh "E" in
      destruct c eqn:E; try discriminate H
  end;
  clear H.

Ltac frame H := apply read_buf_shape in H as (? & ? & ->).

Ltac facts :=
  pose proof below_last; pose proof pix_of_fits;
  pose proof (wf_seen_len _ _ _ Hwf).

Lemma pixel_rgb s2 :
  classify (u8 b) = Some RGB →
  read_buf 1 4 s1 = Ok s2 →
  pixel x y s
  = Ok (remember (pix_of conf x y)
          [buf s2 !!! 1%nat; buf s2 !!! 2%nat; buf s2 !!! 3%nat;
           prev s !!! 3%nat] s2).
Proof.
  intros Hc H2. start. pick Hc. rewrite H2. cbn [bind].
  subst s1. frame H2. facts. unfold remember. norm. cached.
Qed.

Lemma pixel_rgba s2 :
  classify (u8 b) = Some RGBA →
  read_buf 1 5 s1 = Ok s2 →
  pixel x y s
  = Ok (remember (pix_of conf x y)
          [buf s2 !!! 1%nat; buf s2 !!! 2%nat; buf s2 !!! 3%nat;
           buf s2 !!! 4%nat] s2).
Proof.
  intros Hc H2. start. pick Hc. rewrite H2. cbn [bind].
  subst s1. frame H2. facts. unfold remember. norm. cached.
Qed.

Lemma pixel_index c :
  classify (u8 b) = Some INDEX →
  seen s !! Z.to_nat (u8 b) = Some c →
  pixel x y s
  = Ok (set_last pix (paint (pix_of conf x y) (pixel_at s c) s1)).
Proof.
  intros Hc Hs. start. pick Hc.
  assert (below (Z.of_nat (pix_of conf x y)) c) as Hbel.
  { pose proof flat_bounds. unfold pix_of. rewrite Z2Nat.id by lia.
    eapply (Forall_lookup_1 _ _ _ _ (wf_seen _ _ _ Hwf)), Hs. }
  unfold seen_get. subst s1. cbn. rewrite Hs. facts. norm. done.
Qed.

Lemma pixel_diff :
  classify (u8 b) = Some DIFF →
  pixel x y s
  = Ok (remember (pix_of conf x y) (diff_pixel (u8 b) (prev s)) s1).
Proof.
  intros Hc. start. pick Hc.
  subst s1. facts. unfold remember, diff_pixel. norm. cached.
Qed.

Lemma pixel_luma s2 :
  classify (u8 b) = Some LUMA →
  read_buf 1 2 s1 = Ok s2 →
  pixel x y s
  = Ok (remember (pix_of conf x y)
          (luma_pixel (u8 b) (buf s2 !!! 1%nat) (prev s)) s2).
Proof.
  intros Hc H2. start. pick Hc. rewrite H2. cbn [bind].
  subst s1. frame H2. facts. unfold remember, luma_pixel. norm. cached.
Qed.

Lemma pixel_run :
  classify (u8 b) = Some RUN →
  let n := add8 (Z.land (u8 b) 63) 1 in
  pixel x y s
  = if (62 <? n) || (n <? 1) then Err (ErrInvalidRunLength n) (set_run n s1)
    else Ok (paint (pix_of conf x y) (prev s) (set_run (sub8 n 1) s1)).
Proof.
  intros Hc n. start. pick Hc. subst n.
  subst s1. facts. norm.
  destruct (_ || _); [done|]. unfold paint, prev, pixel_at. norm. done.
Qed.

(** A read of extra bytes that fails ends the step with its error. *)
Lemma pixel_extra_err lo hi e t :
  (classify (u8 b) = Some RGB ∧ (lo, hi) = (1, 4)%nat)
  ∨ (classify (u8 b) = Some RGBA ∧ (lo, hi) = (1, 5)%nat)
  ∨ (classify (u8 b) = Some LUMA ∧ (lo, hi) = (1, 2)%nat) →
  read_buf lo hi s1 = Err e t →
  pixel x y s = Err e t.
Proof.
  intros [[Hc [= -> ->]]|[[Hc [= -> ->]]|[Hc [= -> ->]]]] H2;
    start; pick Hc; by rewrite H2.
Qed.
End step.

(** ** Facts about op-code bytes *)

Lemma u8_range b : 0 ≤ u8 b < 256.
Proof. destruct b; vm_compute; split; congruence. Qed.

Lemma classify_total b : classify (u8 b) ≠ None.
Proof. destruct b; vm_compute; congruence. Qed.

Lemma classify_index b : classify (u8 b) = Some INDEX → 0 ≤ u8 b < 64.
Proof. destruct b; vm_compute; intros; try split; congruence. Qed.

Lemma classify_run b :
  classify (u8 b) = Some RUN →
  1 ≤ add8 (Z.land (u8 b) 63) 1 ≤ 62
  ∧ sub8 (add8 (Z.land (u8 b) 63) 1) 1 = Z.land (u8 b) 63.
Proof. destruct b; vm_compute; intros; try (split; [split|]); congruence. Qed.

Lemma classify_run_low b :
  classify (u8 b) = Some RUN → 0 ≤ Z.land (u8 b) 63 ≤ 61.
Proof. destruct b; vm_compute; intros; try split; congruence. Qed.

Lemma read_buf_no_panic lo hi s t : read_buf lo hi s ≠ Panic t.
Proof. unfold read_buf. by destruct (Read _ _) as [[??]|]. Qed.

Lemma pixel_eof conf x y s :
  wf conf (flat conf x y) s → inside conf x y →
  run s ≤ 0 → rd s = [] → pixel x y s = Err EOF s.
Proof.
  intros Hwf Hin Hrun Hrd. unfold pixel.
  rewrite (PixOffset_flat conf), (slice_ok conf) by done. cbn [negb].
  rewrite (proj2 (Z.ltb_ge 0 (run s)) Hrun). unfold read_buf. by rewrite Hrd.
Qed.

(** Under the invariant the loop body is [step]. *)
Lemma pixel_step conf x y s :
  wf conf (flat conf x y) s → inside conf x y →
  pixel x y s = step conf x y s.
Proof.
  intros Hwf Hin. unfold step.
  destruct (0 <? run s) eqn:Hrun.
  { apply Z.ltb_lt in Hrun. by apply (pixel_continue conf). }
  apply Z.ltb_ge in Hrun.
  destruct (rd s) as [|b rest] eqn:Hrd; [by apply (pixel_eof conf)|].
  cbv zeta. destruct (classify (u8 b)) as [[]|] eqn:Hc.
  - destruct (read_buf 1 4 _) as [s2|e t|t] eqn:H2; cbn [bind].
    + exact (pixel_rgb conf x y s Hwf Hin b rest Hrun Hrd s2 Hc H2).
    + eapply (pixel_extra_err conf x y s Hwf Hin b rest Hrun Hrd); eauto.
    + by apply read_buf_no_panic in H2.
  - destruct (read_buf 1 5 _) as [s2|e t|t] eqn:H2; cbn [bind].
    + exact (pixel_rgba conf x y s Hwf Hin b rest Hrun Hrd s2 Hc H2).
    + eapply (pixel_extra_err conf x y s Hwf Hin b rest Hrun Hrd); eauto 6.
    + by apply read_buf_no_panic in H2.
  - pose proof (classify_index _ Hc) as Hb.
    destruct (lookup_lt_is_Some_2 (seen s) (Z.to_nat (u8 b))) as [c Hs].
    { rewrite (wf_seen_len _ _ _ Hwf). lia. }
    rewrite (list_lookup_total_correct _ _ _ Hs). exact (pixel_index conf x y s Hwf Hin b rest Hrun Hrd c Hc Hs).
  - exact (pixel_diff conf x y s Hwf Hin b rest Hrun Hrd Hc).
  - destruct (read_buf 1 2 _) as [s2|e t|t] eqn:H2; cbn [bind].
    + exact (pixel_luma conf x y s Hwf Hin b rest Hrun Hrd s2 Hc H2).
    + eapply (pixel_extra_err conf x y s Hwf Hin b rest Hrun Hrd); eauto 6.
    + by apply read_buf_no_panic in H2.
  - destruct (classify_run _ Hc) as [Hn Hs].
    rewrite (pixel_run conf x y s Hwf Hin b rest Hrun Hrd Hc). cbv zeta.
    rewrite Hs. destruct (_ || _) eqn:E; [|done].
    apply orb_true_iff in E as [E|E]; [apply Z.ltb_lt in E|apply Z.ltb_lt in E]; lia.
  - by apply classify_total in Hc.
Qed.

(** ** The invariant along the loops *)

Lemma last_paint o v s : last (paint o v s) = last s.
Proof. unfold paint. by autorewrite with st. Qed.
Lemma seen_paint o v s : seen (paint o v s) = seen s.
Proof. unfold paint. by autorewrite with st. Qed.
Lemma rd_paint o v s : rd (paint o v s) = rd s.
Proof. unfold paint. by autorewrite with st. Qed.
Lemma buf_paint o v s : buf (paint o v s) = buf s.
Proof. unfold paint. by autorewrite with st. Qed.
Lemma run_paint o v s : run (paint o v s) = run s.
Proof. unfold paint. by autorewrite with st. Qed.
Lemma glob_paint o v s : glob (paint o v s) = glob s.
Proof. unfold paint. by autorewrite with st. Qed.
Lemma Stride_paint o v s : Stride (img (paint o v s)) = Stride (img s).
Proof. unfold paint. by autorewrite with st. Qed.

Hint Rewrite last_paint seen_paint rd_paint buf_paint run_paint glob_paint
  Stride_paint length_paint : st.

Lemma wf_intro conf k k' s t :
  wf conf k s → k ≤ k' →
  Stride (img t) = Stride (img s) →
  length (Pix (img t)) = length (Pix (img s)) →
  (last t = last s ∨ below (4 * k') (last t)) →
  (seen t = seen s
   ∨ ∃ i p, below (4 * k') p ∧ seen t = <[i := p]> (seen s)) →
  wf conf k' t.
Proof.
  intros [H1 H2 H3 H4 H5] Hk E1 E2 Hl Hs.
  assert (Forall (below (4 * k')) (seen s)) as H4'.
  { eapply Forall_impl; [exact H4|]. intros p. apply below_mono. lia. }
  split.
  - congruence.
  - congruence.
  - destruct Hl as [->|]; [|done]. eapply below_mono; [|exact H3]. lia.
  - destruct Hs as [->|(i & p & Hp & ->)]; [done|]. by apply Forall_insert.
  - destruct Hs as [->|(i & p & Hp & ->)]; [done|]. by rewrite length_insert.
Qed.

Lemma step_wf conf x y s s' :
  wf conf (flat conf x y) s → inside conf x y →
  step conf x y s = Ok s' → wf conf (flat conf x y + 1) s'.
Proof.
  intros Hwf Hin. pose proof (flat_bounds conf x y Hin) as Hk.
  assert (below (4 * (flat conf x y + 1)) (PImg (pix_of conf x y))) as Hpix.
  { unfold pix_of. simpl. lia. }
  unfold step.
  repeat match goal with
  | |- context [if ?c then _ else _] => destruct c
  | |- context [match ?c with _ => _ end] => destruct c eqn:?
  end; intros H; try apply bind_Ok in H as (s2 & H2 & H);
    try discriminate H; injection H as <-;
    repeat match goal with
    | H : read_buf _ _ _ = Ok _ |- _ => apply read_buf_shape in H as (? & ? & ->)
    end;
    (eapply wf_intro; [exact Hwf|lia|unfold remember, fetched; norm..]);
    eauto 6.
Qed.

Lemma pixel_wf conf x y s s' :
  wf conf (flat conf x y) s → inside conf x y →
  pixel x y s = Ok s' → wf conf (flat conf x y + 1) s'.
Proof. intros Hwf Hin. rewrite (pixel_step conf) by done. by apply step_wf. Qed.

(** ** What every step keeps *)

Lemma keeps_bind s m k :
  keeps s m → (∀ t, glob t = glob s → keeps s (k t)) → keeps s (bind m k).
Proof.
  unfold keeps. destruct m as [t| |]; simpl; try done. intros Ht Hk. by apply Hk.
Qed.

Lemma keeps_read_buf s t lo hi : glob t = glob s → keeps s (read_buf lo hi t).
Proof. unfold keeps, read_buf. by destruct (Read _ _) as [[??]|]. Qed.

Lemma keeps_seen_put s t i p : glob t = glob s → keeps s (seen_put i p t).
Proof. unfold keeps, seen_put. by case_decide. Qed.

Lemma pixel_glob x y s : keeps s (pixel x y s).
Proof.
  unfold pixel. cbv zeta.
  repeat first
    [ match goal with |- keeps _ (if ?c then _ else _) => destruct c end
    | match goal with |- keeps _ (match ?c with _ => _ end) => destruct c end
    | apply keeps_bind; [|intros ? ?]
    | apply keeps_read_buf
    | apply keeps_seen_put
    | progress (unfold keeps; cbn [final]; autorewrite with st; cbn) ];
    try done.
Qed.

Lemma only_eof_bind m k :
  only_eof m → (∀ t, only_eof (k t)) → only_eof (bind m k).
Proof. destruct m; simpl; auto. Qed.

Lemma only_eof_read_buf lo hi t : only_eof (read_buf lo hi t).
Proof. unfold read_buf. by destruct (Read _ _) as [[??]|]. Qed.

Lemma only_eof_seen_put i p t : only_eof (seen_put i p t).
Proof. unfold seen_put. by case_decide. Qed.

Lemma classify_run_tests z :
  (z =? opRgb) = false → (z =? opRgba) = false →
  (Z.land z op2Mask =? opRun) = true → classify z = Some RUN.
Proof.
  intros E1 E2 E3. unfold classify. rewrite E1, E2.
  apply Z.eqb_eq in E3. rewrite E3. done.
Qed.

Lemma pixel_only_eof x y s : only_eof (pixel x y s).
Proof.
  unfold pixel. cbv zeta.
  destruct (negb _); [done|]. destruct (0 <? run s); [done|].
  unfold read_buf at 1. destruct (rd s) as [|b rest]; [done|].
  cbn [Read bind].
  change (buf (set_buf _ _) !!! 0%nat) with (u8 b).
  destruct (u8 b =? opRgb) eqn:E1.
  { repeat first [apply only_eof_bind; [|intros ?] | apply only_eof_read_buf
                 | apply only_eof_seen_put | done]. }
  destruct (u8 b =? opRgba) eqn:E2.
  { repeat first [apply only_eof_bind; [|intros ?] | apply only_eof_read_buf
                 | apply only_eof_seen_put | done]. }
  destruct (_ =? opIndex). { by destruct (seen_get _ _). }
  destruct (_ =? opDiff).
  { repeat first [apply only_eof_bind; [|intros ?] | apply only_eof_read_buf
                 | apply only_eof_seen_put | done]. }
  destruct (_ =? opLuma).
  { repeat first [apply only_eof_bind; [|intros ?] | apply only_eof_read_buf
                 | apply only_eof_seen_put | done]. }
  destruct (_ =? opRun) eqn:E6; [|done].
  destruct (classify_run b (classify_run_tests _ E1 E2 E6)) as [Hn _].
  cbn [run set_run].
  destruct (_ || _) eqn:E; [|done].
  apply orb_true_iff in E as [E|E]; apply Z.ltb_lt in E; lia.
Qed.

(** ** The loops under an invariant *)

Lemma for_range_total {S : Type} (I : Z → S → Prop) n i
    (body : Z → S → outcome S) s :
  I i s →
  (∀ j t, i ≤ j < i + Z.of_nat n → I j t → ∃ t', body j t = Ok t' ∧ I (j + 1) t') →
  ∃ s', for_range n i body s = Ok s' ∧ I (i + Z.of_nat n) s'.
Proof.
  revert i s. induction n as [|n IH]; intros i s Hi Hstep.
  - exists s. split; [done|]. by rewrite Z.add_0_r.
  - destruct (Hstep i s) as (t & Ht & Hi'); [lia|done|].
    destruct (IH (i + 1) t) as (s' & Hs' & HI); [done| |].
    { intros j u Hj. apply Hstep. lia. }
    exists s'. simpl. rewrite Ht. simpl. split; [done|].
    by replace (i + Z.of_nat (Datatypes.S n)) with (i + 1 + Z.of_nat n) by lia.
Qed.

Lemma for_range_id {S : Type} n i (body : Z → S → outcome S) s :
  (∀ j t, body j t = Ok t) → for_range n i body s = Ok s.
Proof.
  intros Hb. revert i. induction n as [|n IH]; intros i; simpl; [done|].
  rewrite Hb. simpl. apply IH.
Qed.

Section loops.
Context (conf : Config).
Hypothesis HW : 0 ≤ Width conf.

Lemma flat_next_row y : flat conf (Width conf) y = flat conf 0 (y + 1).
Proof. unfold flat. lia. Qed.

Lemma flat_succ x y : flat conf (x + 1) y = flat conf x y + 1.
Proof. unfold flat. lia. Qed.

Section partial.
Context (J : Z → dstate → Prop).
Hypothesis Hstep : ∀ x y t t',
  inside conf x y → J (flat conf x y) t → pixel x y t = Ok t' →
  J (flat conf x y + 1) t'.

Lemma pixels_inv y n s s' :
  0 ≤ y < Height conf → Z.of_nat n ≤ Width conf →
  J (flat conf 0 y) s →
  for_range n 0 (fun x => pixel x y) s = Ok s' →
  J (flat conf (Z.of_nat n) y) s'.
Proof.
  intros Hy Hn Hs Hrun.
  refine (for_range_inv (fun x t => J (flat conf x y) t) n 0
            (fun x => pixel x y) s s' Hs _ Hrun).
  intros j t t' Hj Ht Hp. rewrite flat_succ. eapply Hstep; [|done..].
  split; lia.
Qed.

Lemma row_inv y s s' :
  0 ≤ y < Height conf → J (flat conf 0 y) s → row conf y s = Ok s' →
  J (flat conf 0 (y + 1)) s'.
Proof.
  intros Hy Hs Hrow. rewrite <- flat_next_row.
  replace (Width conf) with (Z.of_nat (Z.to_nat (Width conf))) at 1 by lia.
  eapply pixels_inv; [done|lia|done|exact Hrow].
Qed.

Lemma rows_inv n s s' :
  Z.of_nat n ≤ Height conf → J 0 s →
  for_range n 0 (row conf) s = Ok s' → J (flat conf 0 (Z.of_nat n)) s'.
Proof.
  intros Hn Hs Hrun.
  refine (for_range_inv (fun y t => J (flat conf 0 y) t) n 0
            (row conf) s s' Hs _ Hrun).
  intros j t t' Hj. apply row_inv. lia.
Qed.

Lemma before_inv s0 x y s :
  J 0 s0 → before conf s0 x y s → J (flat conf x y) s.
Proof.
  intros H0 ([Hx Hy] & t & Ht & Hs).
  apply rows_inv in Ht; [|lia|done]. rewrite Z2Nat.id in Ht by lia.
  eapply pixels_inv in Hs; [|done|lia|done]. by rewrite Z2Nat.id in Hs by lia.
Qed.

End partial.

Lemma before_wf s0 x y s :
  wf conf 0 s0 → before conf s0 x y s → wf conf (flat conf x y) s.
Proof.
  apply (before_inv (wf conf)). intros x' y' t t' Hin Ht Hp.
  by apply (pixel_wf conf x' y' t).
Qed.

(** The loops from the pixel [(x, y)] on. *)
Lemma rows_from s0 x y s :
  before conf s0 x y s → rows conf s0 = rest_from conf x y s.
Proof.
  intros ([Hx Hy] & t & Ht & Hs). unfold rows, rest_from, rest_after.
  replace (Z.to_nat (Height conf))
    with (Z.to_nat y + Datatypes.S (Z.to_nat (Height conf - y - 1)))%nat by lia.
  rewrite for_range_add, Ht, Z.add_0_l, Z2Nat.id by lia.
  cbn [bind for_range]. unfold row at 1.
  replace (Z.to_nat (Width conf))
    with (Z.to_nat x + Datatypes.S (Z.to_nat (Width conf - x - 1)))%nat by lia.
  rewrite for_range_add, Hs, Z.add_0_l, Z2Nat.id by lia.
  cbn [bind for_range]. by rewrite bind_assoc.
Qed.

Section total.
Context (J : Z → dstate → Prop) (k0 : Z).
Hypothesis Hstep : ∀ x y t,
  inside conf x y → k0 ≤ flat conf x y → J (flat conf x y) t →
  ∃ t', pixel x y t = Ok t' ∧ J (flat conf x y + 1) t'.

Lemma pixels_total y a s :
  0 ≤ y < Height conf → 0 ≤ a ≤ Width conf → k0 ≤ flat conf a y →
  J (flat conf a y) s →
  ∃ s', for_range (Z.to_nat (Width conf - a)) a (fun x => pixel x y) s = Ok s'
      ∧ J (flat conf 0 (y + 1)) s'.
Proof.
  intros Hy Ha Hk Hs.
  destruct (for_range_total (fun x t => J (flat conf x y) t)
              (Z.to_nat (Width conf - a)) a (fun x => pixel x y) s)
    as (s' & Hs' & HJ); [done| |].
  - intros j t Hj Ht. rewrite flat_succ. apply Hstep; [split; lia| |done].
    unfold flat in *. lia.
  - exists s'. split; [done|]. rewrite <- flat_next_row.
    by replace (a + Z.of_nat (Z.to_nat (Width conf - a))) with (Width conf)
      in HJ by lia.
Qed.

Lemma rows_total b s :
  0 ≤ b ≤ Height conf → k0 ≤ flat conf 0 b → J (flat conf 0 b) s →
  ∃ s', for_range (Z.to_nat (Height conf - b)) b (row conf) s = Ok s'
      ∧ J (Width conf * Height conf) s'.
Proof.
  intros Hb Hk Hs.
  destruct (for_range_total (fun y t => J (flat conf 0 y) t)
              (Z.to_nat (Height conf - b)) b (row conf) s)
    as (s' & Hs' & HJ); [done| |].
  - intros j t Hj Ht. unfold row.
    replace (Z.to_nat (Width conf)) with (Z.to_nat (Width conf - 0)) by lia.
    apply pixels_total; [lia|lia| |done]. unfold flat in *. nia.
  - exists s'. split; [done|].
    replace (b + Z.of_nat (Z.to_nat (Height conf - b))) with (Height conf)
      in HJ by lia.
    unfold flat in HJ.
    by replace (Width conf * Height conf) with (Height conf * Width conf + 0)
      by lia.
Qed.

Lemma rest_after_total x y s :
  inside conf x y → k0 ≤ flat conf x y + 1 → J (flat conf x y + 1) s →
  ∃ s', rest_after conf x y s = Ok s' ∧ J (Width conf * Height conf) s'.
Proof.
  intros [Hx Hy] Hk Hs. unfold rest_after.
  destruct (pixels_total y (x + 1) s) as (s1 & Hs1 & HJ1); [done|lia| | |].
  { by rewrite flat_succ. }
  { by rewrite flat_succ. }
  replace (Width conf - (x + 1)) with (Width conf - x - 1) in Hs1 by lia.
  rewrite Hs1. cbn [bind].
  replace (Height conf - y - 1) with (Height conf - (y + 1)) by lia.
  apply rows_total; [lia| |done]. unfold flat in *. nia.
Qed.
End total.
End loops.

(** ** The start of [decodePixels] *)

Lemma init_wf conf g im r :
  0 ≤ Width conf → 0 ≤ Height conf →
  NewNRGBA (Width conf) (Height conf) = Some im →
  wf conf 0 (init_state g im r).
Proof.
  intros HW HH. unfold NewNRGBA. case_match; [|done]. intros [= <-].
  split; unfold init_state; cbn [img last seen Pix Stride].
  - done.
  - rewrite length_replicate. nia.
  - done.
  - by apply Forall_replicate.
  - by rewrite length_replicate.
Qed.

Lemma lookup_total_nonneg (l : list Z) i : Forall (Z.le 0) l → 0 ≤ l !!! i.
Proof.
  intros Hl. rewrite list_lookup_total_alt.
  destruct (l !! i) as [z|] eqn:E; simpl; [|done].
  by apply (Forall_lookup_1 _ _ _ _ Hl E).
Qed.

Lemma Uint32_nonneg (l : list Z) : Forall (Z.le 0) l → 0 ≤ Uint32 l.
Proof.
  intros Hl. unfold Uint32.
  repeat first [apply Z.lor_nonneg; split | apply Z.shiftl_nonneg
               | by apply lookup_total_nonneg].
Qed.

Lemma u8_nonneg bs : Forall (Z.le 0) (u8 <$> bs).
Proof. apply Forall_fmap, Forall_forall. intros b _. apply u8_range. Qed.

Lemma DecodeConfig_inr input conf r' :
  DecodeConfig input = inr (conf, r') →
  0 ≤ Width conf ∧ 0 ≤ Height conf ∧ r' = drop 14 input.
Proof.
  unfold DecodeConfig, ReadAtLeast, Read.
  destruct input as [|b0 input]; [done|].
  case_decide; [|done]. case_decide; [|done]. intros [= <- <-].
  cbn [Width Height].
  repeat split; try done; apply Uint32_nonneg;
    apply Forall_take, Forall_drop, u8_nonneg.
Qed.

Lemma decoding_wf input conf x y s :
  decoding input conf x y s → wf conf (flat conf x y) s ∧ inside conf x y.
Proof.
  intros (r' & im & Hc & Him & Hb).
  apply DecodeConfig_inr in Hc as (HW & HH & _).
  split; [|apply Hb]. eapply before_wf; [done..| |exact Hb].
  by apply init_wf.
Qed.

(** ** The history cache *)

Lemma pixel_at_set_run n s p : pixel_at (set_run n s) p = pixel_at s p.
Proof. by destruct p. Qed.
Lemma pixel_at_set_last q s p : pixel_at (set_last q s) p = pixel_at s p.
Proof. by destruct p. Qed.
Lemma pixel_at_set_seen c s p : pixel_at (set_seen c s) p = pixel_at s p.
Proof. by destruct p. Qed.
Lemma pixel_at_set_rd r s p : pixel_at (set_rd r s) p = pixel_at s p.
Proof. by destruct p. Qed.
Lemma pixel_at_set_buf b s p : pixel_at (set_buf b s) p = pixel_at s p.
Proof. by destruct p. Qed.

Hint Rewrite pixel_at_set_run pixel_at_set_last pixel_at_set_seen
  pixel_at_set_rd pixel_at_set_buf : st.

Lemma cache_paint o v t :
  Forall (below (Z.of_nat o)) (seen t) → cache (paint o v t) = cache t.
Proof.
  intros Hb. unfold cache. autorewrite with st.
  apply Forall_fmap_ext_1. eapply Forall_impl; [exact Hb|].
  intros p Hp. by apply pixel_at_paint_below.
Qed.

Lemma cache_remember o v t :
  Forall (below (Z.of_nat o)) (seen t) →
  length v = 4%nat → (o + 4 ≤ length (Pix (img t)))%nat →
  pixel_at (remember o v t) (PImg o) = v
  ∧ cache (remember o v t) = <[Z.to_nat (hash v) := v]> (cache t).
Proof.
  intros Hb Hv Ho. unfold remember.
  assert (pixel_at (set_last (PImg o)
            (set_seen (<[Z.to_nat (hash v) := PImg o]> (seen t)) (paint o v t)))
            (PImg o) = v) as Hpix.
  { autorewrite with st. by apply pixel_at_paint. }
  split; [done|].
  unfold cache at 1. cbn [seen set_last set_seen]. rewrite list_fmap_insert.
  rewrite Hpix. f_equal. autorewrite with st.
  apply Forall_fmap_ext_1. eapply Forall_impl; [exact Hb|].
  intros p Hp. autorewrite with st. by apply pixel_at_paint_below.
Qed.

Lemma cache_frame B R s : cache (set_buf B (set_rd R s)) = cache s.
Proof. unfold cache. cbn [seen set_buf set_rd]. apply list_fmap_ext.
  intros ? p _. by autorewrite with st. Qed.

Lemma cache_set_run n s : cache (set_run n s) = cache s.
Proof. unfold cache. cbn [seen set_run]. apply list_fmap_ext.
  intros ? p _. by autorewrite with st. Qed.

Lemma cache_set_last q s : cache (set_last q s) = cache s.
Proof. unfold cache. cbn [seen set_last]. apply list_fmap_ext.
  intros ? p _. by autorewrite with st. Qed.

Section cache_step.
Context (conf : Config) (x y : Z) (s : dstate).
Hypothesis Hwf : wf conf (flat conf x y) s.
Hypothesis Hin : inside conf x y.

Lemma seen_below : Forall (below (Z.of_nat (pix_of conf x y))) (seen s).
Proof.
  pose proof (flat_bounds conf x y Hin). unfold pix_of.
  rewrite Z2Nat.id by lia. apply (wf_seen _ _ _ Hwf).
Qed.

(** What a pass through the loop body does to the cache. *)
Lemma step_cache s' :
  step conf x y s = Ok s' →
  ∃ k, kind_of s = Some k ∧
    let p := pixel_at s' (PImg (pix_of conf x y)) in
    match k with
    | Op RGB | Op RGBA | Op DIFF | Op LUMA =>
        cache s' = <[Z.to_nat (hash p) := p]> (cache s)
    | Op INDEX | Op RUN | Continue => cache s' = cache s
    end.
Proof.
  pose proof seen_below as Hb. pose proof (pix_of_fits conf x y s Hwf Hin) as Hfit.
  unfold step, kind_of. destruct (0 <? run s).
  { intros [= <-]. eexists; split; [done|]. cbv zeta.
    rewrite cache_paint by done. apply cache_set_run. }
  destruct (rd s) as [|b rest]; [done|]. cbv zeta. cbn [fmap option_fmap option_map].
  destruct (classify (u8 b)) as [[]|] eqn:Hc; intros H;
    try apply bind_Ok in H as (s2 & (B & R & ->)%read_buf_shape & H);
    injection H as <-; try (by apply classify_total in Hc);
    (eexists; split; [done|]); cbv zeta; unfold fetched.
  - edestruct cache_remember as [-> ->]; [exact Hb|done|exact Hfit|].
    by rewrite !cache_frame.
  - edestruct cache_remember as [-> ->]; [exact Hb|done|exact Hfit|].
    by rewrite !cache_frame.
  - rewrite cache_set_last, cache_paint by done. apply cache_frame.
  - edestruct cache_remember as [-> ->]; [exact Hb|done|exact Hfit|].
    by rewrite !cache_frame.
  - edestruct cache_remember as [-> ->]; [exact Hb|done|exact Hfit|].
    by rewrite !cache_frame.
  - rewrite cache_paint by done. rewrite cache_set_run. apply cache_frame.
Qed.
End cache_step.

(** C2. Throughout a decode the history cache changes only in the RGB,
    RGBA, DIFF and LUMA cases, and there exactly the slot
    [(r*3 + g*5 + b*7 + a*11) mod 64] of the pixel just produced takes that
    pixel; the INDEX case, the RUN case and a pass that continues a run
    leave all 64 slots as they are. *)
Theorem cache_written_by_rgb_rgba_diff_luma_only input conf x y s s' :
  decoding input conf x y s →
  pixel x y s = Ok s' →
  ∃ k, kind_of s = Some k ∧
    let p := pixel_at s' (PImg (pix_of conf x y)) in
    match k with
    | Op RGB | Op RGBA | Op DIFF | Op LUMA =>
        cache s' = <[Z.to_nat (hash p) := p]> (cache s)
    | Op INDEX | Op RUN | Continue => cache s' = cache s
    end.
Proof.
  intros [Hwf Hin]%decoding_wf. rewrite (pixel_step conf) by done.
  by apply step_cache.
Qed.

(** ** The LUMA and INDEX cases *)

Lemma wrap8_add_l a b : wrap8 (wrap8 a + b) = wrap8 (a + b).
Proof. unfold wrap8. by rewrite Zplus_mod_idemp_l. Qed.
Lemma wrap8_add_r a b : wrap8 (a + wrap8 b) = wrap8 (a + b).
Proof. unfold wrap8. by rewrite Zplus_mod_idemp_r. Qed.
Lemma wrap8_sub_l a b : wrap8 (wrap8 a - b) = wrap8 (a - b).
Proof. unfold wrap8. by rewrite Zminus_mod_idemp_l. Qed.

Lemma wrap8_add_both r a b :
  wrap8 (r + (wrap8 a + wrap8 b)) = wrap8 (r + (a + b)).
Proof.
  rewrite <- (wrap8_add_r r (wrap8 a + wrap8 b)), <- (wrap8_add_r r (a + b)).
  do 2 f_equal. unfold wrap8. symmetry. apply Zplus_mod.
Qed.

Lemma high_nibble b : Z.shiftr (Z.land (u8 b) 240) 4 = Z.land (Z.shiftr (u8 b) 4) 15.
Proof. by destruct b. Qed.

Lemma luma_pixel_eq b b2 r g b_ a :
  let dg := Z.land (u8 b) 63 - 32 in
  let dr := Z.land (Z.shiftr (u8 b2) 4) 15 - 8 + dg in
  let db := Z.land (u8 b2) 15 - 8 + dg in
  luma_pixel (u8 b) (u8 b2) [r; g; b_; a]
  = [(r + dr) mod 256; (g + dg) mod 256; (b_ + db) mod 256; a].
Proof.
  intros dg dr db. unfold luma_pixel. cbv zeta.
  cbn [lookup_total list_lookup_total]. rewrite high_nibble, Z.shiftr_0_r.
  unfold add8, sub8.
  rewrite ?wrap8_add_r, ?wrap8_add_l, ?wrap8_sub_l, !wrap8_add_both.
  done.
Qed.

Lemma classify_luma b : Z.land (u8 b) 192 = 128 → classify (u8 b) = Some LUMA.
Proof. destruct b; vm_compute; congruence. Qed.

Lemma classify_index_tag b :
  Z.land (u8 b) 192 = 0 →
  classify (u8 b) = Some INDEX ∧ Z.land (u8 b) 63 = u8 b.
Proof. destruct b; vm_compute; intros; try split; congruence. Qed.

(** C3. A LUMA op-code byte [b] (two top bits 10) with the next byte [b2],
    read when the previously decoded pixel is [(r, g, b_, a)], produces
    [(r + dr, g + dg, b_ + db, a)] with [dg = (b & 0x3F) - 32],
    [dr = ((b2 >> 4) & 0xF) - 8 + dg] and [db = (b2 & 0xF) - 8 + dg], every
    channel modulo 256; the alpha channel is the one of the previous
    pixel. *)
Theorem luma_adds_wrapped_differences input conf x y s b b2 rest r g b_ a :
  decoding input conf x y s →
  run s = 0 →
  rd s = b :: b2 :: rest →
  Z.land (u8 b) 192 = 128 →
  prev s = [r; g; b_; a] →
  let dg := Z.land (u8 b) 63 - 32 in
  let dr := Z.land (Z.shiftr (u8 b2) 4) 15 - 8 + dg in
  let db := Z.land (u8 b2) 15 - 8 + dg in
  ∃ s', pixel x y s = Ok s'
    ∧ pixel_at s' (PImg (pix_of conf x y))
      = [(r + dr) mod 256; (g + dg) mod 256; (b_ + db) mod 256; a].
Proof.
  intros [Hwf Hin]%decoding_wf Hrun Hrd Htag Hprev dg dr db.
  rewrite (pixel_step conf) by done. unfold step.
  rewrite (proj2 (Z.ltb_ge 0 (run s))) by lia. rewrite Hrd. cbv zeta.
  rewrite (classify_luma b Htag).
  eexists. split; [reflexivity|].
  edestruct cache_remember as [-> _];
    [|reflexivity| |rewrite Hprev; apply luma_pixel_eq].
  - unfold fetched. cbn [seen set_buf set_rd]. by apply (seen_below conf).
  - apply (pix_of_fits conf x y s Hwf Hin).
Qed.

(** C6. An INDEX op-code byte (two top bits 00) produces the pixel that
    the history cache holds in the slot [byte & 0x3F] when the byte is
    read; [last] then points to the pixel just written, so it is the new
    last pixel; the reader has handed out the op-code byte and nothing
    more. *)
Theorem index_copies_cache_slot input conf x y s b rest :
  decoding input conf x y s →
  run s = 0 →
  rd s = b :: rest →
  Z.land (u8 b) 192 = 0 →
  ∃ s', pixel x y s = Ok s'
    ∧ pixel_at s' (PImg (pix_of conf x y))
      = cache s !!! Z.to_nat (Z.land (u8 b) 63)
    ∧ last s' = PImg (pix_of conf x y)
    ∧ prev s' = cache s !!! Z.to_nat (Z.land (u8 b) 63)
    ∧ rd s' = rest.
Proof.
  intros [Hwf Hin]%decoding_wf Hrun Hrd Htag.
  destruct (classify_index_tag b Htag) as [Hc ->].
  pose proof (classify_index b Hc) as Hb.
  rewrite (pixel_step conf) by done. unfold step.
  rewrite (proj2 (Z.ltb_ge 0 (run s))) by lia. rewrite Hrd. cbv zeta.
  rewrite Hc. eexists. split; [reflexivity|].
  assert (pixel_at
            (set_last (PImg (pix_of conf x y))
               (paint (pix_of conf x y)
                  (pixel_at s (seen s !!! Z.to_nat (u8 b))) (fetched b rest s)))
            (PImg (pix_of conf x y))
          = cache s !!! Z.to_nat (u8 b)) as Hpix.
  { autorewrite with st. rewrite pixel_at_paint; [|done|].
    - unfold cache. rewrite (list_lookup_total_fmap (pixel_at s) (seen s)); [done|].
      rewrite (wf_seen_len _ _ _ Hwf). lia.
    - unfold fetched. cbn [img set_buf set_rd].
      apply (pix_of_fits conf x y s Hwf Hin). }
  split; [done|]. split; [done|]. split; [|by autorewrite with st].
  unfold prev. cbn [last set_last]. done.
Qed.

(** ** The package-level variables *)

Lemma for_range_keeps n i (body : Z → dstate → outcome dstate) s :
  (∀ j t, keeps t (body j t)) → keeps s (for_range n i body s).
Proof.
  intros Hb. unfold keeps.
  apply (for_range_final (fun a b => glob b = glob a)); [done| |exact Hb].
  intros a b c. congruence.
Qed.

Lemma rows_keeps conf s : keeps s (rows conf s).
Proof.
  apply for_range_keeps. intros y t. apply for_range_keeps.
  intros x u. apply pixel_glob.
Qed.

Lemma check_eof_keeps s t : glob t = glob s → keeps s (check_eof t).
Proof.
  intros Ht. unfold check_eof. apply keeps_bind; [by apply keeps_read_buf|].
  intros u Hu. by case_decide.
Qed.

Lemma returned_keeps s o : keeps s o → fst (returned o) = glob s.
Proof. by destruct o. Qed.

Lemma decodePixels_glob g r conf : fst (decodePixels g r conf) = g.
Proof.
  unfold decodePixels. destruct (NewNRGBA _ _) as [im|]; [|done].
  change g with (glob (init_state g im r)) at 2.
  apply returned_keeps, keeps_bind; [apply rows_keeps|apply check_eof_keeps].
Qed.

Lemma Decode_from_glob g input : fst (Decode_from g input) = g.
Proof.
  unfold Decode_from. destruct (DecodeConfig input) as [e|[conf r']]; [done|].
  apply decodePixels_glob.
Qed.

(** C7. [Decode] is deterministic. A call leaves the package-level
    variables [startPixel] and [zeroPixel] as it found them, so a second
    call on the same bytes, run in the memory that the first call left,
    returns what the first call returned: the same image or the same
    error. *)
Theorem decode_twice_same_result g input :
  fst (Decode_from g input) = g
  ∧ Decode_from (fst (Decode_from g input)) input = Decode_from g input.
Proof.
  split; [apply Decode_from_glob|]. by rewrite Decode_from_glob.
Qed.

(** ** The errors of a decode *)

Lemma for_range_only_eof n i (body : Z → dstate → outcome dstate) s :
  (∀ j t, only_eof (body j t)) → only_eof (for_range n i body s).
Proof.
  intros Hb. revert i s. induction n as [|n IH]; intros i s; simpl; [done|].
  apply only_eof_bind; [apply Hb|]. intros t. apply IH.
Qed.

Lemma rows_only_eof conf s : only_eof (rows conf s).
Proof.
  apply for_range_only_eof. intros y t. apply for_range_only_eof.
  intros x u. apply pixel_only_eof.
Qed.

Lemma DecodeConfig_errors input e :
  DecodeConfig input = inl e →
  e = EOF ∨ e = ErrUnexpectedEOF ∨ ∃ a, e = ErrInvalidMagic a.
Proof.
  unfold DecodeConfig, ReadAtLeast.
  destruct (Read 14 input) as [[bs r']|]; [|intros [= <-]; auto].
  case_decide; [|intros [= <-]; auto].
  case_decide; [done|]. intros [= <-]. eauto.
Qed.

Lemma decodePixels_errors g r conf e :
  snd (decodePixels g r conf) = Error e → e = EOF ∨ ∃ a, e = ErrInvalidEOF a.
Proof.
  unfold decodePixels. destruct (NewNRGBA _ _) as [im|]; [|done].
  pose proof (rows_only_eof conf (init_state g im r)) as Hrows.
  destruct (rows conf _) as [s|e' s|s]; cbn [bind returned snd];
    [|intros [= <-]; auto|done].
  unfold check_eof.
  pose proof (only_eof_read_buf 0 8 s) as Hrd.
  destruct (read_buf 0 8 s) as [t|e' t|t]; cbn [bind returned snd];
    [|intros [= <-]; auto|done].
  case_decide; cbn [returned snd]; [done|]. intros [= <-]. eauto.
Qed.

Lemma Decode_errors input e :
  Decode input = Error e →
  e = EOF ∨ e = ErrUnexpectedEOF
  ∨ (∃ a, e = ErrInvalidMagic a) ∨ (∃ a, e = ErrInvalidEOF a).
Proof.
  unfold Decode, Decode_from.
  destruct (DecodeConfig input) as [e'|[conf r']] eqn:Hc; cbn [snd].
  - intros [= <-]. apply DecodeConfig_errors in Hc as [->|[->|[a ->]]]; eauto.
  - intros [->|[a ->]]%decodePixels_errors; eauto.
Qed.

(** C8. The [ErrInvalidRunLength] branch of [decodePixels] cannot be
    reached. An op-code byte comes to the RUN case exactly when its two top
    bits are 11 and it is neither 0xFE nor 0xFF; its low six bits are then
    in [0, 61] and the run length [(byte & 0x3F) + 1] in [1, 62]. So no pass
    through the loop body ends in [ErrInvalidRunLength], and [Decode]
    returns that error on no input. *)
Theorem run_length_error_unreachable b input :
  (classify (u8 b) = Some RUN
   ↔ Z.land (u8 b) 192 = 192 ∧ u8 b ≠ 254 ∧ u8 b ≠ 255)
  ∧ (classify (u8 b) = Some RUN →
     0 ≤ Z.land (u8 b) 63 ≤ 61 ∧ 1 ≤ add8 (Z.land (u8 b) 63) 1 ≤ 62)
  ∧ (∀ x y s n t, pixel x y s ≠ Err (ErrInvalidRunLength n) t)
  ∧ (∀ n, Decode input ≠ Error (ErrInvalidRunLength n)).
Proof.
  split; [|split; [|split]].
  - destruct b; vm_compute; split; intros; try done; try (repeat split; congruence);
      destruct_and?; congruence.
  - intros Hc. split; [by apply classify_run_low|by apply classify_run].
  - intros x y s n t H. pose proof (pixel_only_eof x y s) as Ho.
    by rewrite H in Ho.
  - intros n H. apply Decode_errors in H as [?|[?|[[a ?]|[a ?]]]]; done.
Qed.

Lemma run_length_error_unreachable_witness :
  1 ≤ add8 (Z.land (u8 xc5) 63) 1 ≤ 62
  ∧ ∀ n, Decode example_stream ≠ Error (ErrInvalidRunLength n).
Proof.
  destruct (run_length_error_unreachable xc5 example_stream)
    as (_ & H2 & _ & H4).
  split; [|exact H4]. apply H2. vm_compute. reflexivity.
Defined.

(** ** Panics *)

Lemma for_range_no_panic {S : Type} (I : Z → S → Prop) n i
    (body : Z → S → outcome S) s :
  I i s →
  (∀ j t, i ≤ j < i + Z.of_nat n → I j t → ¬ panics (body j t)) →
  (∀ j t t', i ≤ j < i + Z.of_nat n → I j t → body j t = Ok t' → I (j + 1) t') →
  ¬ panics (for_range n i body s).
Proof.
  revert i s. induction n as [|n IH]; intros i s Hi Hsafe Hstep; simpl; [auto|].
  pose proof (Hsafe i s ltac:(lia) Hi) as Hb.
  destruct (body i s) as [t| |] eqn:Ht; simpl; [|auto|done].
  apply IH.
  - eapply Hstep; [|exact Hi|exact Ht]. lia.
  - intros j u Hj. apply Hsafe. lia.
  - intros j u u' Hj. apply Hstep. lia.
Qed.

Lemma step_no_panic conf x y s : ¬ panics (step conf x y s).
Proof.
  unfold step.
  repeat match goal with
  | |- context [if ?c then _ else _] => destruct c
  | |- context [match ?c with _ => _ end] => destruct c eqn:?
  end; simpl; auto;
  match goal with
  | |- context [read_buf ?lo ?hi ?t] =>
      let E := fresh "E" in
      destruct (read_buf lo hi t) eqn:E; simpl; auto;
      by apply read_buf_no_panic in E
  end.
Qed.

Section no_panic.
Context (conf : Config).
Hypothesis HW : 0 ≤ Width conf.

Lemma row_no_panic y s :
  0 ≤ y < Height conf → wf conf (flat conf 0 y) s → ¬ panics (row conf y s).
Proof.
  intros Hy Hs. unfold row.
  apply (for_range_no_panic (fun x t => wf conf (flat conf x y) t)); [done| |].
  - intros j t Hj Ht. rewrite (pixel_step conf) by (done || split; lia).
    apply step_no_panic.
  - intros j t t' Hj Ht Hp. rewrite flat_succ.
    apply (pixel_wf conf j y t); [done|split; lia|done].
Qed.

Lemma rows_no_panic s : wf conf 0 s → ¬ panics (rows conf s).
Proof.
  intros Hs. unfold rows.
  apply (for_range_no_panic (fun y t => wf conf (flat conf 0 y) t)); [done| |].
  - intros j t Hj Ht. apply row_no_panic; [lia|done].
  - intros j t t' Hj Ht Hrow.
    apply (row_inv conf HW (wf conf)) with (s := t); [|lia|done..].
    intros x' y' u u' Hin Hu Hp. by apply (pixel_wf conf x' y' u).
Qed.
End no_panic.

(** [Decode] panics only in [image.NewNRGBA], on a header whose image does
    not fit an [int]: the slice expression for [pix] and the two index
    expressions on [seen] are always in range. *)
Lemma Decode_panics input :
  Decode input = Panicked →
  ∃ conf r', DecodeConfig input = inr (conf, r')
    ∧ maxInt < 4 * Width conf * Height conf.
Proof.
  unfold Decode, Decode_from.
  destruct (DecodeConfig input) as [e|[conf r']] eqn:Hc; [done|].
  intros Hp. exists conf, r'. split; [done|].
  pose proof (DecodeConfig_inr _ _ _ Hc) as (HW & HH & _).
  unfold decodePixels in Hp.
  destruct (NewNRGBA _ _) as [im|] eqn:Him.
  - exfalso.
    pose proof (rows_no_panic conf HW (init_state init_globals im r')
                  (init_wf conf _ im r' HW HH Him)) as Hrows.
    destruct (rows conf _) as [s| |]; cbn [bind returned snd] in Hp; [|done|].
    + unfold check_eof in Hp.
      destruct (read_buf 0 8 s) as [t| |] eqn:E; cbn [bind returned snd] in Hp;
        [|done|by apply read_buf_no_panic in E].
      by case_decide.
    + by apply Hrows.
  - unfold NewNRGBA in Him. case_match; [done|]. lia.
Qed.

Lemma short_header_is_unexpected_end input :
  (length input < 14)%nat → ∃ e, Decode input = Error e ∧ UnexpectedEnd e.
Proof.
  intros Hlen. unfold Decode, Decode_from, DecodeConfig, ReadAtLeast, Read.
  destruct input as [|b input]; [exists EOF; split; [done|by left]|].
  rewrite decide_False by (rewrite length_take; lia).
  exists ErrUnexpectedEOF. split; [done|by right].
Qed.

(** ** Images without pixels *)

Lemma rows_empty conf s :
  Width conf = 0 ∨ Height conf = 0 → rows conf s = Ok s.
Proof.
  intros [HW|HH]; unfold rows.
  - apply for_range_id. intros y t. unfold row. by rewrite HW.
  - by rewrite HH.
Qed.

Lemma NewNRGBA_empty w h :
  w = 0 ∨ h = 0 →
  NewNRGBA w h = Some {| Pix := []; Stride := 4 * w; RectX := w; RectY := h |}.
Proof.
  intros H. unfold NewNRGBA.
  assert (4 * w * h = 0) as -> by (destruct H as [-> | ->]; lia). done.
Qed.

(** The check of the end marker with a fresh [buf]. *)
Lemma check_eof_fresh g im r :
  check_eof (init_state g im r)
  = match r with
    | [] => Err EOF (init_state g im r)
    | _ =>
        let s := set_buf ((u8 <$> take 8 r) ++ drop (length (take 8 r)) (replicate 8 0))
                   (set_rd (drop 8 r) (init_state g im r)) in
        if decide (u8 <$> take 8 r = eof) then Ok s
        else Err (ErrInvalidEOF (buf s)) s
    end.
Proof.
  unfold check_eof, read_buf.
  destruct r as [|a1 [|a2 [|a3 [|a4 [|a5 [|a6 [|a7 [|a8 tl]]]]]]]];
    try done; cbn; repeat case_decide; try done; try discriminate.
Qed.

Lemma Decode_empty input conf r' :
  DecodeConfig input = inr (conf, r') →
  Width conf = 0 ∨ Height conf = 0 →
  let empty := {| Pix := []; Stride := 4 * Width conf;
                  RectX := Width conf; RectY := Height conf |} in
  Decode input
  = match r' with
    | [] => Error EOF
    | _ =>
        if decide (u8 <$> take 8 r' = eof) then Image empty
        else Error (ErrInvalidEOF ((u8 <$> take 8 r')
                      ++ drop (length (take 8 r')) (replicate 8 0)))
    end.
Proof.
  intros Hc Hz empty. unfold Decode, Decode_from, decodePixels.
  rewrite Hc, (NewNRGBA_empty _ _ Hz), (rows_empty _ _ Hz). cbn [bind].
  rewrite check_eof_fresh. destruct r' as [|a tl]; [done|].
  cbv zeta. by case_decide.
Qed.

(** C10. With a header of width 0 or height 0 the loops of [decodePixels]
    read nothing: they leave the store, and the reader in it, as they are.
    [Decode] returns the image without pixels exactly when the eight bytes
    after the 14 header bytes are the end marker; when they are not (or are
    not there) it fails, with an [UnexpectedEnd] error or with
    [ErrInvalidEOF]. *)
Theorem zero_dimension_reads_only_end_marker input conf r' :
  DecodeConfig input = inr (conf, r') →
  Width conf = 0 ∨ Height conf = 0 →
  let empty := {| Pix := []; Stride := 4 * Width conf;
                  RectX := Width conf; RectY := Height conf |} in
  r' = drop 14 input
  ∧ rows conf (init_state init_globals empty r')
    = Ok (init_state init_globals empty r')
  ∧ (Decode input = Image empty ↔ u8 <$> take 8 r' = eof)
  ∧ (u8 <$> take 8 r' ≠ eof →
     ∃ e, Decode input = Error e
       ∧ (UnexpectedEnd e ∨ ∃ a, e = ErrInvalidEOF a)).
Proof.
  intros Hc Hz empty. pose proof (Decode_empty input conf r' Hc Hz) as HD.
  cbv zeta in HD. fold empty in HD.
  split; [by apply DecodeConfig_inr in Hc as (_ & _ & ->)|].
  split; [by apply rows_empty|].
  rewrite HD. destruct r' as [|a tl].
  - split; [by split|]. intros _. exists EOF. split; [done|]. left. by left.
  - case_decide; split; try split; try done. intros _. eauto.
Qed.

(** ** A run that reaches the end of the image *)

Section run_to_end.
Context (conf : Config) (x y : Z) (s : dstate) (b : byte) (rest : list byte).
Hypothesis Hwf : wf conf (flat conf x y) s.
Hypothesis Hin : inside conf x y.
Hypothesis Hrun : run s = 0.
Hypothesis Hrd : rd s = b :: rest.
Hypothesis Hop : classify (u8 b) = Some RUN.
Hypothesis Hlen :
  Width conf * Height conf - flat conf x y ≤ Z.land (u8 b) 63 + 1.

Lemma run_first :
  ∃ s1, pixel x y s = Ok s1 ∧ in_run conf x y s b rest (flat conf x y + 1) s1.
Proof.
  pose proof (flat_bounds conf x y Hin) as Hk.
  pose proof (pix_of_fits conf x y s Hwf Hin) as Hfit.
  pose proof (below_last conf x y s Hwf Hin) as Hlast.
  eexists. split.
  { rewrite (pixel_step conf) by done. unfold step.
    rewrite (proj2 (Z.ltb_ge 0 (run s))) by lia. rewrite Hrd. cbv zeta.
    rewrite Hop. reflexivity. }
  split; [|split; [|split; [|split; [|split]]]].
  - apply (pixel_wf conf x y s); [done..|].
    rewrite (pixel_step conf) by done. unfold step.
    rewrite (proj2 (Z.ltb_ge 0 (run s))) by lia. rewrite Hrd. cbv zeta.
    by rewrite Hop.
  - by autorewrite with st.
  - autorewrite with st. cbn. lia.
  - by autorewrite with st.
  - rewrite pixel_at_paint_below by done. unfold fetched. by autorewrite with st.
  - intros j Hj. assert (j = flat conf x y) as -> by lia.
    fold (pix_of conf x y). rewrite pixel_at_paint; [done|done|].
    unfold fetched. by autorewrite with st.
Qed.

Lemma run_next x' y' t :
  inside conf x' y' → flat conf x y + 1 ≤ flat conf x' y' →
  in_run conf x y s b rest (flat conf x' y') t →
  ∃ t', pixel x' y' t = Ok t' ∧ in_run conf x y s b rest (flat conf x' y' + 1) t'.
Proof.
  intros Hin' Hk (Hwf' & Hrd' & Hrun' & Hlast' & Hprev' & Hpix').
  pose proof (flat_bounds conf x' y' Hin') as Hk'.
  pose proof (pix_of_fits conf x' y' t Hwf' Hin') as Hfit.
  pose proof (below_last conf x' y' t Hwf' Hin') as Hbl.
  destruct (classify_run b Hop) as [Hn Hs].
  pose proof (classify_run_low b Hop) as Hland.
  assert (0 < run t) as Hpos by lia.
  assert (pixel x' y' t
          = Ok (paint (pix_of conf x' y') (prev t)
                  (set_run (sub8 (run t) 1) t))) as Hp.
  { rewrite (pixel_step conf) by done. unfold step.
    by rewrite (proj2 (Z.ltb_lt 0 (run t))) by lia. }
  eexists. split; [exact Hp|].
  assert (prev t = prev s) as Hpt by (unfold prev; by rewrite Hlast').
  split; [|split; [|split; [|split; [|split]]]].
  - by apply (pixel_wf conf x' y' t).
  - by autorewrite with st.
  - autorewrite with st. cbn [run set_run]. unfold sub8, wrap8.
    rewrite Z.mod_small by lia. lia.
  - by autorewrite with st.
  - rewrite <- Hlast' at 1. rewrite pixel_at_paint_below by done.
    autorewrite with st. by rewrite Hlast'.
  - intros j Hj. destruct (decide (j = flat conf x' y')) as [->|Hne].
    + fold (pix_of conf x' y'). rewrite pixel_at_paint; [done|done|].
      by autorewrite with st.
    + rewrite pixel_at_paint_below.
      * autorewrite with st. apply Hpix'. lia.
      * pose proof (flat_bounds conf x y Hin). unfold pix_of. cbn [below]. lia.
Qed.

Lemma run_to_end :
  ∃ s_end, rest_from conf x y s = Ok s_end
    ∧ in_run conf x y s b rest (Width conf * Height conf) s_end.
Proof.
  destruct run_first as (s1 & Hs1 & HJ). unfold rest_from. rewrite Hs1.
  cbn [bind]. pose proof Hin as [Hx Hy].
  assert (0 ≤ Width conf) as HW by lia.
  apply (rest_after_total conf HW (in_run conf x y s b rest) (flat conf x y + 1));
    [|done|lia|done].
  intros x' y' t. apply run_next.
Qed.
End run_to_end.

(** C9. When a RUN op-code is read at the pixel [(x, y)] and its length
    [(byte & 0x3F) + 1] is larger than the number of pixels that are left,
    the loops end without an error once the image is full: every pixel from
    [(x, y)] on is the last pixel, the reader still holds all the bytes
    after the op-code byte, the rest of the run count stays in [run] and is
    not looked at again, and [Decode] goes on with the check of the end
    marker. *)
Theorem run_past_end_discarded input conf r' im x y s b rest :
  DecodeConfig input = inr (conf, r') →
  NewNRGBA (Width conf) (Height conf) = Some im →
  before conf (init_state init_globals im r') x y s →
  run s = 0 →
  rd s = b :: rest →
  classify (u8 b) = Some RUN →
  Width conf * Height conf - flat conf x y < Z.land (u8 b) 63 + 1 →
  ∃ s_end,
    rows conf (init_state init_globals im r') = Ok s_end
    ∧ rd s_end = rest
    ∧ run s_end
      = Z.land (u8 b) 63 + 1 - (Width conf * Height conf - flat conf x y)
    ∧ 0 < run s_end
    ∧ (∀ x' y', inside conf x' y' → flat conf x y ≤ flat conf x' y' →
         pixel_at s_end (PImg (pix_of conf x' y')) = prev s)
    ∧ Decode input = snd (returned (check_eof s_end)).
Proof.
  intros Hc Him Hb Hrun Hrd Hop Hlen.
  pose proof (DecodeConfig_inr _ _ _ Hc) as (HW & HH & _).
  assert (wf conf (flat conf x y) s) as Hwf.
  { eapply before_wf; [done| |exact Hb]. by apply init_wf. }
  pose proof Hb as [Hin _].
  destruct (run_to_end conf x y s b rest Hwf Hin Hrun Hrd Hop ltac:(lia))
    as (s_end & Hend & (_ & Hrd' & Hrun' & _ & _ & Hpix)).
  rewrite <- (rows_from conf _ x y s Hb) in Hend.
  exists s_end. split; [done|]. split; [done|]. split; [lia|]. split; [lia|].
  split.
  - intros x' y' Hin' Hle. apply Hpix.
    pose proof (flat_bounds conf x' y' Hin'). lia.
  - unfold Decode, Decode_from, decodePixels. by rewrite Hc, Him, Hend.
Qed.

Lemma run_past_end_discarded_witness :
  ∃ s_end,
    rows example_conf example_start = Ok s_end
    ∧ rd s_end = drop 22 example_stream
    ∧ run s_end = 5
    ∧ Decode example_stream = snd (returned (check_eof s_end)).
Proof.
  destruct (run_past_end_discarded example_stream example_conf
              (drop 14 example_stream) example_image 3 0 (example_at 3)
              xc5 (drop 22 example_stream))
    as (s_end & H1 & H2 & H3 & _ & _ & H6).
  - vm_compute. reflexivity.
  - vm_compute. reflexivity.
  - split; [unfold inside; simpl; lia|].
    exists example_start. split; vm_compute; reflexivity.
  - vm_compute. reflexivity.
  - vm_compute. reflexivity.
  - vm_compute. reflexivity.
  - vm_compute. reflexivity.
  - exists s_end. split; [exact H1|]. split; [exact H2|]. split; [exact H3|].
    exact H6.
Defined.

(** C1. The stream of a header with the magic bytes, width 1 and height 1
    and any channel-count and colorspace bytes, the RGBA op-code bytes
    0xFF, 10, 20, 30, 255 and the eight bytes of the end marker decodes to
    the 1x1 image whose pixel is (10, 20, 30, 255). *)
Theorem decode_1x1_rgba channels colorspace :
  Decode (rgba_stream channels colorspace)
  = Image {| Pix := [10; 20; 30; 255]; Stride := 4; RectX := 1; RectY := 1 |}.
Proof. vm_compute. reflexivity. Qed.

Lemma low_six_bits_63 b :
  Z.land (u8 b) 63 = 63 →
  (u8 b = 63 ∧ classify (u8 b) = Some INDEX)
  ∨ (u8 b = 127 ∧ classify (u8 b) = Some DIFF)
  ∨ (u8 b = 191 ∧ classify (u8 b) = Some LUMA)
  ∨ (u8 b = 255 ∧ classify (u8 b) = Some RGBA).
Proof. destruct b; vm_compute; intros; try congruence; auto 6. Qed.

(** C4, as the spec states it, fails: the stream of C1 has the op-code byte
    0xFF, whose low six bits are 63, and decodes to an image. *)
Lemma low_six_bits_63_counterexample :
  ¬ low_six_bits_63_fails_with_run_length.
Proof.
  intros H.
  destruct (H (rgba_stream x04 x00) {| Width := 1; Height := 1 |} 0 0
              (init_state init_globals
                 {| Pix := [0; 0; 0; 0]; Stride := 4; RectX := 1; RectY := 1 |}
                 (drop 14 (rgba_stream x04 x00)))
              xff (drop 15 (rgba_stream x04 x00))) as [n Hn].
  - eexists _, _. split; [vm_compute; reflexivity|].
    split; [vm_compute; reflexivity|].
    split; [unfold inside; simpl; lia|].
    eexists. split; vm_compute; reflexivity.
  - reflexivity.
  - reflexivity.
  - reflexivity.
  - vm_compute in Hn. discriminate Hn.
Qed.

(** C4, amended. In every decode an op-code byte whose low six bits are 63
    is taken as INDEX (0x3F), DIFF (0x7F), LUMA (0xBF) or RGBA (0xFF), not
    as RUN; the pass through the loop body that reads it does not end in
    [ErrInvalidRunLength], and neither does the decode. *)
Theorem low_six_bits_63_not_a_run input conf x y s b rest :
  decoding input conf x y s →
  run s = 0 →
  rd s = b :: rest →
  Z.land (u8 b) 63 = 63 →
  (kind_of s = Some (Op INDEX) ∨ kind_of s = Some (Op DIFF)
   ∨ kind_of s = Some (Op LUMA) ∨ kind_of s = Some (Op RGBA))
  ∧ (∀ n t, pixel x y s ≠ Err (ErrInvalidRunLength n) t)
  ∧ (∀ n, Decode input ≠ Error (ErrInvalidRunLength n)).
Proof.
  intros _ Hrun Hrd Hb. split; [|split].
  - unfold kind_of. rewrite Hrun, Hrd. cbn [Z.ltb Z.compare].
    destruct (low_six_bits_63 b Hb) as [[_ ->]|[[_ ->]|[[_ ->]|[_ ->]]]];
      cbn; auto.
  - intros n t H. pose proof (pixel_only_eof x y s) as Ho. by rewrite H in Ho.
  - intros n H. apply Decode_errors in H as [?|[?|[[a ?]|[a ?]]]]; done.
Qed.

Lemma low_six_bits_63_not_a_run_witness :
  kind_of (init_state init_globals
             {| Pix := [0; 0; 0; 0]; Stride := 4; RectX := 1; RectY := 1 |}
             (drop 14 (rgba_stream x04 x00)))
  = Some (Op RGBA)
  ∧ ∀ n, Decode (rgba_stream x04 x00) ≠ Error (ErrInvalidRunLength n).
Proof.
  destruct (low_six_bits_63_not_a_run (rgba_stream x04 x00)
              {| Width := 1; Height := 1 |} 0 0
              (init_state init_globals
                 {| Pix := [0; 0; 0; 0]; Stride := 4; RectX := 1; RectY := 1 |}
                 (drop 14 (rgba_stream x04 x00)))
              xff (drop 15 (rgba_stream x04 x00))) as (_ & _ & H).
  - eexists _, _. split; [vm_compute; reflexivity|].
    split; [vm_compute; reflexivity|].
    split; [unfold inside; simpl; lia|].
    eexists. split; vm_compute; reflexivity.
  - vm_compute. reflexivity.
  - vm_compute. reflexivity.
  - vm_compute. reflexivity.
  - split; [vm_compute; reflexivity|exact H].
Defined.

(** C5, the code at a stream that stops inside the end marker: the header
    of a 0x0 image and three zero bytes. [r.Read(buf)] returns the three
    bytes with a nil error, the rest of [buf] keeps what it held, and the
    decode fails with [ErrInvalidEOF], which is no [UnexpectedEnd]
    error. *)
Theorem short_end_marker_is_invalid_eof :
  Decode short_end_marker_stream
  = Error (ErrInvalidEOF [0; 0; 0; 0; 0; 0; 0; 0])
  ∧ ¬ UnexpectedEnd (ErrInvalidEOF [0; 0; 0; 0; 0; 0; 0; 0]).
Proof.
  split; [vm_compute; reflexivity|]. by intros [|].
Qed.

Lemma example_decoding (n : nat) :
  (n < 4)%nat →
  for_range n 0 (fun x => pixel x 0) example_start = Ok (example_at n) →
  decoding example_stream example_conf (Z.of_nat n) 0 (example_at n).
Proof.
  intros Hn Hrun. exists (drop 14 example_stream), example_image.
  split; [vm_compute; reflexivity|]. split; [vm_compute; reflexivity|].
  split; [unfold inside; simpl; lia|].
  exists example_start. split; [vm_compute; reflexivity|].
  by rewrite Nat2Z.id.
Defined.

Lemma cache_written_by_rgb_rgba_diff_luma_only_witness :
  ∃ s', pixel 1 0 (example_at 1) = Ok s'
    ∧ kind_of (example_at 1) = Some (Op LUMA)
    ∧ cache s' = <[51%nat := [16; 25; 39; 255]]> (cache (example_at 1)).
Proof.
  exists (example_at 2).
  assert (pixel 1 0 (example_at 1) = Ok (example_at 2)) as Hp
    by (vm_compute; reflexivity).
  split; [exact Hp|].
  destruct (cache_written_by_rgb_rgba_diff_luma_only example_stream
              example_conf 1 0 (example_at 1) (example_at 2))
    as (k & Hk & Hcache).
  - apply (example_decoding 1); [lia|vm_compute; reflexivity].
  - exact Hp.
  - assert (k = Op LUMA) as -> by (vm_compute in Hk; congruence).
    split; [vm_compute; reflexivity|].
    cbv beta iota zeta in Hcache.
    replace (pixel_at (example_at 2) (PImg (pix_of example_conf 1 0)))
      with [16; 25; 39; 255] in Hcache by (vm_compute; reflexivity).
    exact Hcache.
Defined.

Lemma luma_adds_wrapped_differences_witness :
  ∃ s', pixel 1 0 (example_at 1) = Ok s'
    ∧ pixel_at s' (PImg 4) = [16; 25; 39; 255].
Proof.
  destruct (luma_adds_wrapped_differences example_stream example_conf 1 0
              (example_at 1) xa5 x9c (drop 20 example_stream) 10 20 30 255)
    as (s' & H1 & H2).
  - apply (example_decoding 1); [lia|vm_compute; reflexivity].
  - vm_compute. reflexivity.
  - vm_compute. reflexivity.
  - vm_compute. reflexivity.
  - vm_compute. reflexivity.
  - exists s'. split; [exact H1|exact H2].
Defined.

Lemma index_copies_cache_slot_witness :
  ∃ s', pixel 2 0 (example_at 2) = Ok s'
    ∧ pixel_at s' (PImg 8) = [10; 20; 30; 255]
    ∧ last s' = PImg 8
    ∧ rd s' = drop 21 example_stream.
Proof.
  destruct (index_copies_cache_slot example_stream example_conf 2 0
              (example_at 2) x09 (drop 21 example_stream))
    as (s' & H1 & H2 & H3 & _ & H5).
  - apply (example_decoding 2); [lia|vm_compute; reflexivity].
  - vm_compute. reflexivity.
  - vm_compute. reflexivity.
  - vm_compute. reflexivity.
  - exists s'. split; [exact H1|]. split; [exact H2|]. split; [exact H3|exact H5].
Defined.

Lemma zero_dimension_reads_only_end_marker_witness :
  Decode empty_stream
  = Image {| Pix := []; Stride := 0; RectX := 0; RectY := 5 |}.
Proof.
  destruct (zero_dimension_reads_only_end_marker empty_stream
              {| Width := 0; Height := 5 |} (drop 14 empty_stream))
    as (_ & _ & H & _).
  - vm_compute. reflexivity.
  - left. reflexivity.
  - apply H. vm_compute. reflexivity.
Defined.

(** * More of the decoder *)

Lemma u8_b8 z : 0 ≤ z < 256 → u8 (b8 z) = z.
Proof.
  intros Hz. unfold u8, b8.
  destruct (Byte.of_N (Z.to_N z)) as [b|] eqn:E; simpl.
  - apply Byte.to_of_N in E. rewrite E. lia.
  - apply Byte.of_N_None_iff in E. lia.
Qed.

Lemma lor_shiftl_add a b n :
  0 ≤ n → 0 ≤ a < 2 ^ n → Z.lor a (Z.shiftl b n) = a + b * 2 ^ n.
Proof.
  intros Hn Ha. pose proof (Z.add_lor_land a (Z.shiftl b n)) as Hadd.
  rewrite Z.shiftl_mul_pow2 in * by done.
  assert (Z.land a (b * 2 ^ n) = 0) as Hland; [|lia].
  apply Z.bits_inj'. intros i Hi. rewrite Z.land_spec, Z.bits_0.
  destruct (decide (i < n)).
  - rewrite Z.mul_pow2_bits_low by lia. apply andb_false_r.
  - rewrite <- (Z.mod_small a (2 ^ n)) by lia.
    rewrite Z.mod_pow2_bits_high by lia. done.
Qed.

Lemma Uint32_bytes a b c d :
  0 ≤ a < 256 → 0 ≤ b < 256 → 0 ≤ c < 256 → 0 ≤ d < 256 →
  Uint32 [a; b; c; d] = a * 2 ^ 24 + b * 2 ^ 16 + c * 2 ^ 8 + d.
Proof.
  intros Ha Hb Hc Hd. unfold Uint32. cbn [lookup_total list_lookup_total].
  rewrite (lor_shiftl_add d c 8) by lia.
  rewrite (lor_shiftl_add _ b 16) by lia.
  rewrite (lor_shiftl_add _ a 24) by lia. lia.
Qed.

Lemma Uint32_be32 n : 0 ≤ n < 2 ^ 32 → Uint32 (u8 <$> be32 n) = n.
Proof.
  intros Hn. unfold be32. cbn [fmap list_fmap].
  rewrite !u8_b8 by (apply Z.mod_pos_bound; lia).
  rewrite Uint32_bytes by (apply Z.mod_pos_bound; lia).
  pose proof (Z.div_mod n (2 ^ 24) ltac:(lia)).
  pose proof (Z.div_mod n (2 ^ 16) ltac:(lia)).
  pose proof (Z.div_mod n (2 ^ 8) ltac:(lia)).
  assert (n / 2 ^ 24 mod 256 = n / 2 ^ 24) as ->.
  { apply Z.mod_small. split; [apply Z.div_pos; lia|].
    apply Z.div_lt_upper_bound; lia. }
  assert (n / 2 ^ 16 mod 256 = n / 2 ^ 16 - 256 * (n / 2 ^ 24)) as ->.
  { rewrite Z.mod_eq by lia. f_equal. f_equal.
    rewrite Z.div_div by lia. done. }
  assert (n / 2 ^ 8 mod 256 = n / 2 ^ 8 - 256 * (n / 2 ^ 16)) as ->.
  { rewrite Z.mod_eq by lia. f_equal. f_equal.
    rewrite Z.div_div by lia. done. }
  rewrite (Z.mod_eq n 256) by lia. change 256 with (2 ^ 8). lia.
Qed.

Arguments b8 : simpl never.
Arguments u8 : simpl never.

(** [DecodeConfig] on a stream that has its fourteen bytes. *)
Lemma DecodeConfig_14 m0 m1 m2 m3 w0 w1 w2 w3 h0 h1 h2 h3 c cs rest :
  DecodeConfig (m0 :: m1 :: m2 :: m3 :: w0 :: w1 :: w2 :: w3 :: h0 :: h1
                  :: h2 :: h3 :: c :: cs :: rest)
  = if decide ([u8 m0; u8 m1; u8 m2; u8 m3] = Magic)
    then inr ({| Width := Uint32 [u8 w0; u8 w1; u8 w2; u8 w3];
                 Height := Uint32 [u8 h0; u8 h1; u8 h2; u8 h3] |}, rest)
    else inl (ErrInvalidMagic [u8 m0; u8 m1; u8 m2; u8 m3]).
Proof.
  unfold DecodeConfig, ReadAtLeast, Read. cbn [app take drop length].
  rewrite decide_True by done. cbn [fmap list_fmap take drop].
  by case_decide.
Qed.

Lemma split_14 (input : list byte) :
  (14 ≤ length input)%nat →
  ∃ m0 m1 m2 m3 w0 w1 w2 w3 h0 h1 h2 h3 c cs rest,
    input = m0 :: m1 :: m2 :: m3 :: w0 :: w1 :: w2 :: w3 :: h0 :: h1 :: h2
              :: h3 :: c :: cs :: rest.
Proof.
  intros H.
  do 14 (destruct input as [|? input]; [simpl in H; lia|]).
  by repeat eexists.
Qed.

Lemma DecodeConfig_short (input : list byte) :
  (length input < 14)%nat →
  DecodeConfig input = inl (if decide (input = []) then EOF else ErrUnexpectedEOF).
Proof.
  intros H. unfold DecodeConfig, ReadAtLeast, Read.
  destruct input as [|b input]; [done|].
  rewrite decide_False by (rewrite length_take; lia). by rewrite decide_False.
Qed.

(** X1. Header round trip: [DecodeConfig] on the fourteen header bytes
    that say the width [w] and the height [h], both below 2^32 (the magic
    bytes, the two numbers with the most significant byte first, any
    channel-count and colorspace bytes), gives back [w] and [h] and leaves
    the reader at the first byte after the header. *)
Theorem header_round_trip w h channels colorspace rest :
  0 ≤ w < 2 ^ 32 → 0 ≤ h < 2 ^ 32 →
  DecodeConfig (header_of w h channels colorspace ++ rest)
  = inr ({| Width := w; Height := h |}, rest).
Proof.
  intros Hw Hh. unfold header_of.
  change (be32 w) with ([b8 (w / 2 ^ 24 mod 256); b8 (w / 2 ^ 16 mod 256);
                         b8 (w / 2 ^ 8 mod 256); b8 (w mod 256)]).
  change (be32 h) with ([b8 (h / 2 ^ 24 mod 256); b8 (h / 2 ^ 16 mod 256);
                         b8 (h / 2 ^ 8 mod 256); b8 (h mod 256)]).
  cbn [app]. rewrite (DecodeConfig_14 _ _ _ _ _ _ _ _ _ _ _ _ _ _ rest).
  rewrite decide_True by (by vm_compute).
  pose proof (Uint32_be32 w Hw) as Ew. pose proof (Uint32_be32 h Hh) as Eh.
  unfold be32 in Ew, Eh. cbn [fmap list_fmap] in Ew, Eh. by rewrite Ew, Eh.
Qed.

Lemma header_round_trip_witness :
  DecodeConfig (header_of 640 480 x04 x00 ++ [xfe; x01])
  = inr ({| Width := 640; Height := 480 |}, [xfe; x01]).
Proof. apply (header_round_trip 640 480 x04 x00 [xfe; x01]); lia. Defined.

(** X2. The header bytes 12 and 13 (channels and colorspace) have no
    influence on [Decode]: two streams that differ only there give the same
    result and leave the same package-level variables. *)
Theorem decode_ignores_channels_and_colorspace g pre c cs c' cs' rest :
  length pre = 12%nat →
  Decode_from g (pre ++ [c; cs] ++ rest) = Decode_from g (pre ++ [c'; cs'] ++ rest).
Proof.
  intros H.
  do 12 (destruct pre as [|? pre]; [done|]). destruct pre; [|done].
  unfold Decode_from. cbn [app].
  by rewrite (DecodeConfig_14 _ _ _ _ _ _ _ _ _ _ _ _ c cs rest),
    (DecodeConfig_14 _ _ _ _ _ _ _ _ _ _ _ _ c' cs' rest).
Qed.

Lemma decode_ignores_channels_and_colorspace_witness :
  Decode_from init_globals
    ([x71; x6f; x69; x66; x00; x00; x00; x00; x00; x00; x00; x00]
       ++ [x03; x01] ++ [x00; x00; x00; x00; x00; x00; x00; x01])
  = Decode_from init_globals
      ([x71; x6f; x69; x66; x00; x00; x00; x00; x00; x00; x00; x00]
         ++ [xff; x7f] ++ [x00; x00; x00; x00; x00; x00; x00; x01]).
Proof.
  apply (decode_ignores_channels_and_colorspace init_globals
           [x71; x6f; x69; x66; x00; x00; x00; x00; x00; x00; x00; x00]).
  reflexivity.
Defined.

Lemma Decode_inl input e : DecodeConfig input = inl e → Decode input = Error e.
Proof. intros H. unfold Decode, Decode_from. by rewrite H. Qed.

Lemma Decode_inr input conf r' :
  DecodeConfig input = inr (conf, r') →
  Decode input = snd (decodePixels init_globals r' conf).
Proof. intros H. unfold Decode, Decode_from. by rewrite H. Qed.

(** X3. [Decode] returns [io.ErrUnexpectedEOF] exactly on the streams of 1
    to 13 bytes: the header is the only place where a short read is reported
    as such. *)
Theorem unexpected_eof_iff_short_header input :
  Decode input = Error ErrUnexpectedEOF ↔ (0 < length input < 14)%nat.
Proof.
  destruct (decide (length input < 14)%nat) as [Hs|Hl].
  - rewrite (Decode_inl _ _ (DecodeConfig_short input Hs)).
    destruct input as [|b input]; simpl; split; try done; try lia.
    intros _. simpl in Hs. lia.
  - split; [|lia]. intros HD. exfalso.
    destruct (split_14 input ltac:(lia))
      as (m0&m1&m2&m3&w0&w1&w2&w3&h0&h1&h2&h3&c&cs&rest&->).
    pose proof (DecodeConfig_14 m0 m1 m2 m3 w0 w1 w2 w3 h0 h1 h2 h3 c cs rest)
      as Hc.
    case_decide.
    + rewrite (Decode_inr _ _ _ Hc) in HD.
      by apply decodePixels_errors in HD as [?|[a ?]].
    + by rewrite (Decode_inl _ _ Hc) in HD.
Qed.

(** X4. [Decode] returns [ErrInvalidMagic] exactly when the stream has its
    fourteen header bytes and the first four are not the magic bytes; the
    error carries these four bytes. *)
Theorem invalid_magic_iff input a :
  Decode input = Error (ErrInvalidMagic a)
  ↔ (14 ≤ length input)%nat ∧ a = u8 <$> take 4 input ∧ a ≠ Magic.
Proof.
  destruct (decide (length input < 14)%nat) as [Hs|Hl].
  - rewrite (Decode_inl _ _ (DecodeConfig_short input Hs)).
    split; [by case_decide|lia].
  - destruct (split_14 input ltac:(lia))
      as (m0&m1&m2&m3&w0&w1&w2&w3&h0&h1&h2&h3&c&cs&rest&->).
    pose proof (DecodeConfig_14 m0 m1 m2 m3 w0 w1 w2 w3 h0 h1 h2 h3 c cs rest)
      as Hc.
    cbn [take fmap list_fmap]. case_decide as Hm.
    + rewrite (Decode_inr _ _ _ Hc). split.
      * by intros [?|[? ?]]%decodePixels_errors.
      * intros (_ & -> & Hne). done.
    + rewrite (Decode_inl _ _ Hc). split.
      * intros [= <-]. split; [simpl; lia|done].
      * by intros (_ & -> & _).
Qed.

(** ** The two loops as one *)

Lemma for_range_ext {S : Type} n i i' (body body' : Z → S → outcome S) s :
  (∀ j t, 0 ≤ j < Z.of_nat n → body (i + j) t = body' (i' + j) t) →
  for_range n i body s = for_range n i' body' s.
Proof.
  revert i i' s. induction n as [|n IH]; intros i i' s Hb; simpl; [done|].
  pose proof (Hb 0 s ltac:(lia)) as H0. rewrite !Z.add_0_r in H0. rewrite H0.
  destruct (body' i' s); simpl; try done. apply IH.
  intros j u Hj. replace (i + 1 + j) with (i + (j + 1)) by lia.
  replace (i' + 1 + j) with (i' + (j + 1)) by lia. apply Hb. lia.
Qed.

Lemma for_range_concat {S : Type} n m a (body : Z → S → outcome S) s :
  for_range n a (fun y => for_range m (y * Z.of_nat m) body) s
  = for_range (n * m) (a * Z.of_nat m) body s.
Proof.
  revert a s. induction n as [|n IH]; intros a s; [done|].
  cbn [for_range Nat.mul]. rewrite for_range_add.
  destruct (for_range m (a * Z.of_nat m) body s); simpl; try done.
  rewrite IH. f_equal. lia.
Qed.

Lemma pass_flat conf x y s :
  0 ≤ x < Width conf → pass conf (flat conf x y) s = pixel x y s.
Proof.
  intros Hx. unfold pass, flat. f_equal.
  - rewrite Z.add_comm, Z.mod_add by lia. apply Z.mod_small. lia.
  - rewrite Z.add_comm, Z.div_add by lia. rewrite Z.div_small by lia. lia.
Qed.

Lemma inside_pass conf k :
  0 ≤ Width conf →
  0 ≤ k < Width conf * Height conf →
  inside conf (k mod Width conf) (k / Width conf)
  ∧ flat conf (k mod Width conf) (k / Width conf) = k.
Proof.
  intros HW Hk.
  assert (0 < Width conf) as Hpos.
  { destruct (decide (Width conf = 0)) as [E|]; [rewrite E in Hk|]; lia. }
  pose proof (Z.mod_pos_bound k (Width conf) Hpos).
  pose proof (Z.div_mod k (Width conf) ltac:(lia)).
  assert (0 ≤ k / Width conf) by (apply Z.div_pos; lia).
  assert (k / Width conf < Height conf) by (apply Z.div_lt_upper_bound; nia).
  unfold inside, flat. lia.
Qed.

Lemma row_flat conf y s :
  0 ≤ Width conf → 0 ≤ y →
  row conf y s
  = for_range (Z.to_nat (Width conf)) (y * Z.of_nat (Z.to_nat (Width conf)))
      (pass conf) s.
Proof.
  intros HW Hy. unfold row. apply for_range_ext. intros j t Hj.
  rewrite Z.add_0_l, Z2Nat.id by lia.
  change (y * Width conf + j) with (flat conf j y).
  symmetry. apply pass_flat. lia.
Qed.

(** The rows of pixels, one row after the other, are the passes
    [0, 1, ..., W * H - 1]. *)
Lemma rows_flat conf s :
  0 ≤ Width conf → 0 ≤ Height conf →
  rows conf s
  = for_range (Z.to_nat (Width conf * Height conf)) 0 (pass conf) s.
Proof.
  intros HW HH. unfold rows.
  replace (Z.to_nat (Width conf * Height conf))
    with (Z.to_nat (Height conf) * Z.to_nat (Width conf))%nat by nia.
  change 0 with (0 * Z.of_nat (Z.to_nat (Width conf))) at 2.
  rewrite <- for_range_concat. apply for_range_ext. intros j t Hj.
  rewrite !Z.add_0_l. apply row_flat; lia.
Qed.

Lemma before_flat conf s0 x y s :
  inside conf x y →
  (before conf s0 x y s
   ↔ for_range (Z.to_nat (flat conf x y)) 0 (pass conf) s0 = Ok s).
Proof.
  intros Hin. pose proof Hin as [Hx Hy].
  assert (for_range (Z.to_nat (flat conf x y)) 0 (pass conf) s0
          = bind (for_range (Z.to_nat y) 0 (row conf) s0)
              (for_range (Z.to_nat x) 0 (fun x => pixel x y))) as ->.
  { unfold flat.
    replace (Z.to_nat (y * Width conf + x))
      with (Z.to_nat y * Z.to_nat (Width conf) + Z.to_nat x)%nat by nia.
    rewrite for_range_add.
    change 0 with (0 * Z.of_nat (Z.to_nat (Width conf))) at 1.
    rewrite <- for_range_concat.
    rewrite (for_range_ext (Z.to_nat y) 0 0 (row conf)
               (fun y => for_range (Z.to_nat (Width conf))
                           (y * Z.of_nat (Z.to_nat (Width conf))) (pass conf))).
    2:{ intros j t Hj. rewrite !Z.add_0_l. apply row_flat; lia. }
    destruct (for_range (Z.to_nat y) 0 _ s0) as [t| |]; simpl; try done.
    symmetry. apply for_range_ext. intros j u Hj.
    replace (0 + Z.of_nat (Z.to_nat y * Z.to_nat (Width conf)) + j)
      with (flat conf j y) by (unfold flat; nia).
    rewrite ?Z.add_0_l. symmetry. apply pass_flat. lia. }
  unfold before. rewrite bind_Ok. split.
  - intros (_ & t & Ht & Hs). eauto.
  - intros (t & Ht & Hs). eauto.
Qed.

(** ** The size of the image *)

Lemma RectX_store p k v s : RectX (img (store p k v s)) = RectX (img s).
Proof. by destruct p. Qed.
Lemma RectY_store p k v s : RectY (img (store p k v s)) = RectY (img s).
Proof. by destruct p. Qed.

Hint Rewrite RectX_store RectY_store : st.

Lemma same_frame_bind s m k :
  same_frame s m → (∀ t, same_frame s (Ok t) → same_frame s (k t)) →
  same_frame s (bind m k).
Proof. destruct m as [t| |]; simpl; try done. intros Ht Hk. by apply Hk. Qed.

Lemma same_frame_read_buf s t lo hi :
  same_frame s (Ok t) → same_frame s (read_buf lo hi t).
Proof. unfold same_frame, read_buf. by destruct (Read _ _) as [[??]|]. Qed.

Lemma same_frame_seen_put s t i p :
  same_frame s (Ok t) → same_frame s (seen_put i p t).
Proof. unfold same_frame, seen_put. by case_decide. Qed.

Lemma same_frame_refl s : same_frame s (Ok s).
Proof. by unfold same_frame. Qed.

Lemma pixel_same_frame x y s : same_frame s (pixel x y s).
Proof.
  pose proof (same_frame_refl s) as Hs.
  unfold pixel. cbv zeta.
  repeat first
    [ match goal with |- same_frame _ (if ?c then _ else _) => destruct c end
    | match goal with |- same_frame _ (match ?c with _ => _ end) => destruct c end
    | apply same_frame_bind; [|intros ? ?]
    | apply same_frame_read_buf
    | apply same_frame_seen_put
    | done
    | progress (unfold same_frame in *; cbn [final] in *;
                repeat (progress (cbn; autorewrite with st));
                intuition congruence) ].
Qed.

Lemma for_range_same_frame n i (body : Z → dstate → outcome dstate) s :
  (∀ j t, same_frame t (body j t)) → same_frame s (for_range n i body s).
Proof.
  intros Hb. unfold same_frame.
  apply (for_range_final
           (fun a b => RectX (img b) = RectX (img a)
                       ∧ RectY (img b) = RectY (img a)
                       ∧ Stride (img b) = Stride (img a)
                       ∧ length (Pix (img b)) = length (Pix (img a))));
    [done| |exact Hb].
  intros a b c. intuition congruence.
Qed.

Lemma rows_same_frame conf s : same_frame s (rows conf s).
Proof.
  apply for_range_same_frame. intros y t. apply for_range_same_frame.
  intros x u. apply pixel_same_frame.
Qed.

Lemma check_eof_same_frame s t : same_frame s (Ok t) → same_frame s (check_eof t).
Proof.
  intros Ht. unfold check_eof.
  apply same_frame_bind; [by apply same_frame_read_buf|].
  intros u Hu. by case_decide.
Qed.

Lemma Uint32_range a b c d : 0 ≤ Uint32 [u8 a; u8 b; u8 c; u8 d] < 2 ^ 32.
Proof.
  pose proof (u8_range a). pose proof (u8_range b).
  pose proof (u8_range c). pose proof (u8_range d).
  rewrite Uint32_bytes by done. lia.
Qed.

Lemma DecodeConfig_range input conf r' :
  DecodeConfig input = inr (conf, r') →
  0 ≤ Width conf < 2 ^ 32 ∧ 0 ≤ Height conf < 2 ^ 32.
Proof.
  intros Hc.
  destruct (decide (length input < 14)%nat) as [Hs|Hl].
  { by rewrite (DecodeConfig_short input Hs) in Hc. }
  destruct (split_14 input ltac:(lia))
    as (m0&m1&m2&m3&w0&w1&w2&w3&h0&h1&h2&h3&c&cs&rest&->).
  rewrite DecodeConfig_14 in Hc. case_decide; [|done].
  injection Hc as <- <-. cbn [Width Height]. split; apply Uint32_range.
Qed.

(** X5. The image that [Decode] returns has the size that the header says:
    its rectangle is [Width] by [Height], both below 2^32, its stride is
    [4 * Width], and [Pix] has [4 * Width * Height] bytes. *)
Theorem decoded_image_has_header_size input im :
  Decode input = Image im →
  ∃ conf r',
    DecodeConfig input = inr (conf, r')
    ∧ 0 ≤ Width conf < 2 ^ 32 ∧ 0 ≤ Height conf < 2 ^ 32
    ∧ RectX im = Width conf ∧ RectY im = Height conf
    ∧ Stride im = 4 * Width conf
    ∧ Z.of_nat (length (Pix im)) = 4 * Width conf * Height conf.
Proof.
  unfold Decode, Decode_from.
  destruct (DecodeConfig input) as [e|[conf r']] eqn:Hc; [done|].
  intros HD. exists conf, r'. split; [done|].
  destruct (DecodeConfig_range _ _ _ Hc) as [HW HH].
  split; [done|]. split; [done|].
  unfold decodePixels in HD.
  destruct (NewNRGBA _ _) as [im0|] eqn:Him; [|done].
  assert (same_frame (init_state init_globals im0 r')
            (bind (rows conf (init_state init_globals im0 r')) check_eof))
    as (H1 & H2 & H3 & H4).
  { apply same_frame_bind; [apply rows_same_frame|].
    intros t Ht. by apply check_eof_same_frame. }
  destruct (bind _ _) as [s| |]; [|done..].
  injection HD as <-. cbn [final init_state img] in H1, H2, H3, H4.
  unfold NewNRGBA in Him. case_match; [|done]. injection Him as <-.
  cbn [RectX RectY Stride Pix] in H1, H2, H3, H4.
  rewrite H1, H2, H3, H4, length_replicate. repeat split; try done. lia.
Qed.


Lemma decoded_image_has_header_size_witness :
  ∃ conf r',
    DecodeConfig example_stream = inr (conf, r')
    ∧ 0 ≤ Width conf < 2 ^ 32 ∧ 0 ≤ Height conf < 2 ^ 32
    ∧ 4 = Width conf ∧ 1 = Height conf
    ∧ 16 = 4 * Width conf
    ∧ 16 = 4 * Width conf * Height conf.
Proof.
  apply (decoded_image_has_header_size example_stream
           {| Pix := [10; 20; 30; 255; 16; 25; 39; 255;
                      10; 20; 30; 255; 10; 20; 30; 255];
              Stride := 16; RectX := 4; RectY := 1 |}).
  vm_compute. reflexivity.
Defined.

(** ** The RGB, RGBA and DIFF cases *)

Lemma read_buf_full lo (bs : list byte) s rest :
  rd s = bs ++ rest → bs ≠ [] →
  read_buf lo (lo + length bs) s
  = Ok (set_buf (take lo (buf s) ++ (u8 <$> bs) ++ drop (lo + length bs) (buf s))
          (set_rd rest s)).
Proof.
  intros Hrd Hne. unfold read_buf, Read. rewrite Hrd.
  replace (lo + length bs - lo)%nat with (length bs) by lia.
  destruct bs as [|b bs]; [done|]. cbn [app].
  change (b :: bs ++ rest) with ((b :: bs) ++ rest).
  by rewrite take_app_length, drop_app_length.
Qed.

Section ops.
Context (input : list byte) (conf : Config) (x y : Z) (s : dstate).
Context (b : byte) (rest : list byte).
Hypothesis Hdec : decoding input conf x y s.
Hypothesis Hrun : run s = 0.

Lemma op_step more :
  rd s = b :: more →
  pixel x y s
  = match classify (u8 b) with
    | Some RGB =>
        bind (read_buf 1 4 (fetched b more s)) (fun s2 =>
        Ok (remember (pix_of conf x y)
              [buf s2 !!! 1%nat; buf s2 !!! 2%nat; buf s2 !!! 3%nat;
               prev s !!! 3%nat] s2))
    | Some RGBA =>
        bind (read_buf 1 5 (fetched b more s)) (fun s2 =>
        Ok (remember (pix_of conf x y)
              [buf s2 !!! 1%nat; buf s2 !!! 2%nat; buf s2 !!! 3%nat;
               buf s2 !!! 4%nat] s2))
    | Some DIFF =>
        Ok (remember (pix_of conf x y) (diff_pixel (u8 b) (prev s))
              (fetched b more s))
    | _ => step conf x y s
    end.
Proof.
  intros Hrd. destruct (decoding_wf _ _ _ _ _ Hdec) as [Hwf Hin].
  rewrite (pixel_step conf) by done.
  destruct (classify (u8 b)) as [[]|] eqn:Hc; try done;
    unfold step; rewrite (proj2 (Z.ltb_ge 0 (run s))) by lia;
    rewrite Hrd; cbv zeta; by rewrite Hc.
Qed.

Lemma remembered v t :
  seen t = seen s → length (Pix (img t)) = length (Pix (img s)) →
  length v = 4%nat →
  pixel_at (remember (pix_of conf x y) v t) (PImg (pix_of conf x y)) = v.
Proof.
  intros Hseen Hlen Hv. destruct (decoding_wf _ _ _ _ _ Hdec) as [Hwf Hin].
  edestruct cache_remember as [-> _]; [|exact Hv| |done].
  - rewrite Hseen. by apply (seen_below conf).
  - rewrite Hlen. apply (pix_of_fits conf x y s Hwf Hin).
Qed.
End ops.

(** X7. An RGB op-code byte (0xFE) followed by three bytes produces the
    pixel of these three bytes with the alpha of the previous pixel; [last]
    then points to the written pixel, the four bytes have left the reader
    and no run is under way. *)
Theorem rgb_copies_three_bytes_keeps_alpha
    input conf x y s b b1 b2 b3 rest r g b_ a :
  decoding input conf x y s →
  run s = 0 →
  rd s = b :: b1 :: b2 :: b3 :: rest →
  u8 b = 254 →
  prev s = [r; g; b_; a] →
  ∃ s', pixel x y s = Ok s'
    ∧ pixel_at s' (PImg (pix_of conf x y)) = [u8 b1; u8 b2; u8 b3; a]
    ∧ last s' = PImg (pix_of conf x y)
    ∧ rd s' = rest
    ∧ run s' = 0.
Proof.
  intros Hdec Hrun Hrd Hb Hprev.
  rewrite (op_step input conf x y s b Hdec Hrun _ Hrd), Hb.
  cbn [classify Z.eqb opRgb Pos.eqb].
  rewrite (read_buf_full 1 [b1; b2; b3] _ rest) by done. cbn [bind].
  eexists. split; [reflexivity|]. rewrite Hprev.
  split; [|split; [done|split; [|]]].
  - by apply (remembered input conf x y s Hdec).
  - unfold remember. by autorewrite with st.
  - unfold remember. autorewrite with st. done.
Qed.

(** X8. An RGBA op-code byte (0xFF) followed by four bytes produces the
    pixel of these four bytes; [last] then points to the written pixel, the
    five bytes have left the reader and no run is under way. *)
Theorem rgba_copies_four_bytes input conf x y s b b1 b2 b3 b4 rest :
  decoding input conf x y s →
  run s = 0 →
  rd s = b :: b1 :: b2 :: b3 :: b4 :: rest →
  u8 b = 255 →
  ∃ s', pixel x y s = Ok s'
    ∧ pixel_at s' (PImg (pix_of conf x y)) = [u8 b1; u8 b2; u8 b3; u8 b4]
    ∧ last s' = PImg (pix_of conf x y)
    ∧ rd s' = rest
    ∧ run s' = 0.
Proof.
  intros Hdec Hrun Hrd Hb.
  rewrite (op_step input conf x y s b Hdec Hrun _ Hrd), Hb.
  cbn [classify Z.eqb opRgb opRgba Pos.eqb].
  rewrite (read_buf_full 1 [b1; b2; b3; b4] _ rest) by done. cbn [bind].
  eexists. split; [reflexivity|].
  split; [|split; [done|split; [|]]].
  - by apply (remembered input conf x y s Hdec).
  - unfold remember. by autorewrite with st.
  - unfold remember. autorewrite with st. done.
Qed.

Lemma classify_diff b : Z.land (u8 b) 192 = 64 → classify (u8 b) = Some DIFF.
Proof. destruct b; vm_compute; congruence. Qed.

Lemma diff_pixel_eq b0 r g b_ a :
  diff_pixel b0 [r; g; b_; a]
  = [(r + Z.land (Z.shiftr b0 4) 3 - 2) mod 256;
     (g + Z.land (Z.shiftr b0 2) 3 - 2) mod 256;
     (b_ + Z.land b0 3 - 2) mod 256; a].
Proof.
  unfold diff_pixel. cbn [lookup_total list_lookup_total].
  unfold sub8, add8. by rewrite !wrap8_sub_l, Z.shiftr_0_r.
Qed.

(** X9. A DIFF op-code byte [b] (two top bits 01), read when the previous
    pixel is [(r, g, b_, a)], produces
    [(r + ((b >> 4) & 3) - 2, g + ((b >> 2) & 3) - 2, b_ + (b & 3) - 2, a)],
    the three colour channels modulo 256; [last] then points to the written
    pixel and only the op-code byte has left the reader. *)
Theorem diff_adds_two_bit_differences input conf x y s b rest r g b_ a :
  decoding input conf x y s →
  run s = 0 →
  rd s = b :: rest →
  Z.land (u8 b) 192 = 64 →
  prev s = [r; g; b_; a] →
  ∃ s', pixel x y s = Ok s'
    ∧ pixel_at s' (PImg (pix_of conf x y))
      = [(r + Z.land (Z.shiftr (u8 b) 4) 3 - 2) mod 256;
         (g + Z.land (Z.shiftr (u8 b) 2) 3 - 2) mod 256;
         (b_ + Z.land (u8 b) 3 - 2) mod 256; a]
    ∧ last s' = PImg (pix_of conf x y)
    ∧ rd s' = rest
    ∧ run s' = 0.
Proof.
  intros Hdec Hrun Hrd Hb Hprev.
  rewrite (op_step input conf x y s b Hdec Hrun _ Hrd), (classify_diff b Hb).
  eexists. split; [reflexivity|]. rewrite Hprev, diff_pixel_eq.
  split; [|split; [done|split; [|]]].
  - by apply (remembered input conf x y s Hdec).
  - unfold remember. by autorewrite with st.
  - unfold remember. autorewrite with st. done.
Qed.

(** ** Passes *)

Lemma for_range_outcome {S : Type} (I : Z → S → Prop) (E : error → Prop) n i
    (body : Z → S → outcome S) s :
  I i s →
  (∀ j t, i ≤ j < i + Z.of_nat n → I j t →
     match body j t with
     | Ok t' => I (j + 1) t'
     | Err e _ => E e
     | Panic _ => False
     end) →
  match for_range n i body s with
  | Ok s' => I (i + Z.of_nat n) s'
  | Err e _ => E e
  | Panic _ => False
  end.
Proof.
  revert i s. induction n as [|n IH]; intros i s Hi Hb.
  - simpl. by rewrite Z.add_0_r.
  - simpl. pose proof (Hb i s ltac:(lia) Hi) as H1.
    destruct (body i s) as [t| |]; simpl; try done.
    replace (i + Z.of_nat (Datatypes.S n)) with (i + 1 + Z.of_nat n) by lia.
    apply IH; [done|]. intros j u Hj. apply Hb. lia.
Qed.

Lemma pix_of_pass conf k :
  0 ≤ Width conf →
  0 ≤ k < Width conf * Height conf →
  pix_of conf (k mod Width conf) (k / Width conf) = Z.to_nat (4 * k).
Proof.
  intros HW Hk. unfold pix_of.
  by rewrite (proj2 (inside_pass conf k HW Hk)).
Qed.

Lemma pass_step conf k t :
  0 ≤ Width conf →
  0 ≤ k < Width conf * Height conf → wf conf k t →
  pass conf k t = step conf (k mod Width conf) (k / Width conf) t.
Proof.
  intros HW Hk Hwf. destruct (inside_pass conf k HW Hk) as [Hin Hf].
  unfold pass. apply (pixel_step conf); [by rewrite Hf|done].
Qed.

Lemma pass_wf conf k t t' :
  0 ≤ Width conf →
  0 ≤ k < Width conf * Height conf → wf conf k t →
  pass conf k t = Ok t' → wf conf (k + 1) t'.
Proof.
  intros HW Hk Hwf Hp. destruct (inside_pass conf k HW Hk) as [Hin Hf].
  rewrite <- Hf. apply (pixel_wf conf _ _ t); [by rewrite Hf|done|exact Hp].
Qed.

(** The passes from the pixel number [k] on. *)
Lemma rows_from_pass conf s0 k s :
  0 ≤ Width conf → 0 ≤ Height conf →
  0 ≤ k ≤ Width conf * Height conf →
  for_range (Z.to_nat k) 0 (pass conf) s0 = Ok s →
  rows conf s0
  = for_range (Z.to_nat (Width conf * Height conf - k)) k (pass conf) s.
Proof.
  intros HW HH Hk Hs. rewrite (rows_flat conf) by done.
  replace (Z.to_nat (Width conf * Height conf))
    with (Z.to_nat k + Z.to_nat (Width conf * Height conf - k))%nat by lia.
  rewrite for_range_add, Hs. cbn [bind]. f_equal. lia.
Qed.

(** ** An empty reader *)

Lemma exhausted_pass conf k t :
  0 ≤ Width conf →
  0 ≤ k < Width conf * Height conf →
  wf conf k t ∧ rd t = [] →
  match pass conf k t with
  | Ok t' => wf conf (k + 1) t' ∧ rd t' = []
  | Err e _ => e = EOF
  | Panic _ => False
  end.
Proof.
  intros HW Hk [Hwf Hrd].
  pose proof (fun t' => pass_wf conf k t t' HW Hk Hwf) as Hnext.
  rewrite (pass_step conf k t HW Hk Hwf) in *.
  unfold step in *. rewrite Hrd in *. destruct (0 <? run t); [|done].
  split; [by apply Hnext|]. by autorewrite with st.
Qed.

Lemma exhausted_from input conf r' im n s :
  DecodeConfig input = inr (conf, r') →
  NewNRGBA (Width conf) (Height conf) = Some im →
  Z.of_nat n ≤ Width conf * Height conf →
  for_range n 0 (pass conf) (init_state init_globals im r') = Ok s →
  rd s = [] →
  Decode input = Error EOF.
Proof.
  intros Hc Him Hn Hs Hrd.
  destruct (DecodeConfig_inr _ _ _ Hc) as (HW & HH & _).
  assert (wf conf (Z.of_nat n) s) as Hwf.
  { refine (for_range_inv (wf conf) n 0 (pass conf) _ s
              (init_wf conf _ im r' HW HH Him) _ Hs).
    intros j t t' Hj. apply pass_wf; [done|lia]. }
  unfold Decode, Decode_from, decodePixels. rewrite Hc, Him.
  rewrite (rows_from_pass conf _ (Z.of_nat n) s) by (done || lia || by rewrite Nat2Z.id).
  pose proof (for_range_outcome (fun k t => wf conf k t ∧ rd t = [])
                (fun e => e = EOF)
                (Z.to_nat (Width conf * Height conf - Z.of_nat n)) (Z.of_nat n)
                (pass conf) s (conj Hwf Hrd)) as Hout.
  destruct (for_range _ (Z.of_nat n) (pass conf) s) as [s_end|e t|t].
  - destruct Hout as [_ Hend].
    { intros j t Hj. apply exhausted_pass; [done|lia]. }
    cbn [bind]. unfold check_eof, read_buf, Read. by rewrite Hend.
  - rewrite Hout; [done|]. intros j u Hj. apply exhausted_pass; [done|lia].
  - destruct Hout. intros j u Hj. apply exhausted_pass; [done|lia].
Qed.

(** X10. When the reader is empty at the start of a pass through the loop
    body, [Decode] returns [io.EOF]: a run that is under way is completed
    without a read, and the next read, for an op-code or for the end marker,
    finds nothing. *)
Theorem exhausted_reader_gives_eof input conf x y s :
  decoding input conf x y s → rd s = [] → Decode input = Error EOF.
Proof.
  intros Hdec Hrd. destruct (decoding_wf _ _ _ _ _ Hdec) as [_ Hin].
  destruct Hdec as (r' & im & Hc & Him & Hb).
  apply (before_flat conf _ x y s Hin) in Hb.
  pose proof (flat_bounds conf x y Hin).
  apply (exhausted_from input conf r' im (Z.to_nat (flat conf x y)) s);
    (done || lia).
Qed.

(** ** A run inside the image *)

Section run_inside.
Context (conf : Config) (x y : Z) (s : dstate) (b : byte) (rest : list byte).
Hypothesis Hwf : wf conf (flat conf x y) s.
Hypothesis Hin : inside conf x y.
Hypothesis Hrun : run s = 0.
Hypothesis Hrd : rd s = b :: rest.
Hypothesis Hop : classify (u8 b) = Some RUN.

Lemma run_first_cache s1 : pixel x y s = Ok s1 → cache s1 = cache s.
Proof.
  rewrite (pixel_step conf) by done. intros Hs1.
  destruct (step_cache conf x y s Hwf Hin s1 Hs1) as (k & Hk & Hcache).
  unfold kind_of in Hk. rewrite Hrun, Hrd, Hop in Hk. cbn in Hk.
  by injection Hk as <-.
Qed.

Lemma run_continue k t :
  flat conf x y + 1 ≤ k < flat conf x y + (Z.land (u8 b) 63 + 1) →
  k < Width conf * Height conf →
  in_run conf x y s b rest k t ∧ cache t = cache s →
  ∃ t', pass conf k t = Ok t'
    ∧ in_run conf x y s b rest (k + 1) t' ∧ cache t' = cache s.
Proof.
  intros Hk HkN [(Hwf' & Hrd' & Hrun' & Hlast' & Hprev' & Hpix') Hcache].
  pose proof Hin as [Hx Hy]. assert (0 ≤ Width conf) as HW by lia.
  pose proof (flat_bounds conf x y Hin) as Hk0.
  destruct (inside_pass conf k HW ltac:(lia)) as [Hin' Hf].
  set (x' := k mod Width conf) in *. set (y' := k / Width conf) in *.
  rewrite <- Hf in Hwf'.
  pose proof (pix_of_fits conf x' y' t Hwf' Hin') as Hfit.
  pose proof (below_last conf x' y' t Hwf' Hin') as Hbl.
  pose proof (classify_run_low b Hop) as Hland.
  assert (0 < run t) as Hpos by lia.
  assert (pass conf k t
          = Ok (paint (pix_of conf x' y') (prev t)
                  (set_run (sub8 (run t) 1) t))) as Hp.
  { unfold pass. fold x' y'. rewrite (pixel_step conf) by done. unfold step.
    by rewrite (proj2 (Z.ltb_lt 0 (run t))) by lia. }
  eexists. split; [exact Hp|].
  assert (prev t = prev s) as Hpt by (unfold prev; by rewrite Hlast').
  split; [split; [|split; [|split; [|split; [|split]]]]|].
  - rewrite <- Hf. apply (pixel_wf conf x' y' t); [done..|].
    by rewrite <- Hp.
  - by autorewrite with st.
  - autorewrite with st. cbn [run set_run]. unfold sub8, wrap8.
    rewrite Z.mod_small by lia. lia.
  - by autorewrite with st.
  - rewrite <- Hlast' at 1. rewrite pixel_at_paint_below by done.
    autorewrite with st. by rewrite Hlast'.
  - intros j Hj. destruct (decide (j = k)) as [->|Hne].
    + replace (Z.to_nat (4 * k)) with (pix_of conf x' y')
        by (unfold pix_of; by rewrite Hf).
      rewrite pixel_at_paint; [done|done|]. by autorewrite with st.
    + rewrite pixel_at_paint_below.
      * autorewrite with st. apply Hpix'. lia.
      * unfold pix_of. rewrite Hf. cbn [below]. lia.
  - rewrite cache_paint, cache_set_run; [done|].
    autorewrite with st. cbn [seen set_run]. by apply (seen_below conf).
Qed.

Lemma run_inside :
  flat conf x y + (Z.land (u8 b) 63 + 1) ≤ Width conf * Height conf →
  ∃ s', for_range (Z.to_nat (Z.land (u8 b) 63 + 1)) (flat conf x y)
          (pass conf) s = Ok s'
    ∧ in_run conf x y s b rest (flat conf x y + (Z.land (u8 b) 63 + 1)) s'
    ∧ cache s' = cache s.
Proof.
  intros Hfit. pose proof (classify_run_low b Hop) as Hland.
  pose proof Hin as [Hx Hy].
  destruct (for_range_total
              (fun k t => (k = flat conf x y ∧ t = s)
                          ∨ (flat conf x y < k
                             ∧ in_run conf x y s b rest k t ∧ cache t = cache s))
              (Z.to_nat (Z.land (u8 b) 63 + 1)) (flat conf x y) (pass conf) s)
    as (s' & Hs' & [[? _]|(_ & HJ)]); [by left| |lia|].
  - intros k t Hk [[-> ->]|(Hlt & HJ)].
    + destruct (run_first conf x y s b rest Hwf Hin Hrun Hrd Hop)
        as (s1 & Hs1 & HJ1).
      exists s1. rewrite pass_flat by lia. split; [done|]. right.
      split; [lia|]. split; [done|]. by apply run_first_cache.
    + destruct (run_continue k t ltac:(lia) ltac:(lia) HJ) as (t' & Ht' & HJ').
      exists t'. split; [done|]. right. split; [lia|done].
  - exists s'. split; [done|].
    by rewrite Z2Nat.id in HJ by lia.
Qed.
End run_inside.

(** X11. A RUN op-code of the length [n = (byte & 0x3F) + 1], read at the
    pixel [(x, y)] with [n] pixels or more left in the image, makes the next
    [n] passes write [n] copies of the previous pixel; after them the run
    counter is 0 again, the reader has handed out the op-code byte and
    nothing more, [last] and the cache are as before, and the decode goes on
    at the pixel number [flat + n]. *)
Theorem run_writes_copies_of_last_pixel input conf x y s b rest :
  decoding input conf x y s →
  run s = 0 →
  rd s = b :: rest →
  classify (u8 b) = Some RUN →
  flat conf x y + (Z.land (u8 b) 63 + 1) ≤ Width conf * Height conf →
  ∃ s',
    for_range (Z.to_nat (Z.land (u8 b) 63 + 1)) (flat conf x y) (pass conf) s
    = Ok s'
    ∧ rd s' = rest
    ∧ run s' = 0
    ∧ last s' = last s
    ∧ cache s' = cache s
    ∧ (∀ j, flat conf x y ≤ j < flat conf x y + (Z.land (u8 b) 63 + 1) →
         pixel_at s' (PImg (Z.to_nat (4 * j))) = prev s)
    ∧ (flat conf x y + (Z.land (u8 b) 63 + 1) < Width conf * Height conf →
       decoding input conf
         ((flat conf x y + (Z.land (u8 b) 63 + 1)) mod Width conf)
         ((flat conf x y + (Z.land (u8 b) 63 + 1)) / Width conf) s').
Proof.
  intros Hdec Hrun Hrd Hop Hfit.
  destruct (decoding_wf _ _ _ _ _ Hdec) as [Hwf Hin].
  destruct (run_inside conf x y s b rest Hwf Hin Hrun Hrd Hop Hfit)
    as (s' & Hs' & (_ & Hrd' & Hrun' & Hlast' & _ & Hpix) & Hcache).
  exists s'. split; [done|]. split; [done|]. split; [lia|].
  split; [done|]. split; [done|]. split; [done|].
  intros Hlt. destruct Hdec as (r' & im & Hc & Him & Hb).
  exists r', im. split; [done|]. split; [done|].
  pose proof Hin as [Hx Hy]. assert (0 ≤ Width conf) as HW by lia.
  pose proof (flat_bounds conf x y Hin) as Hk0.
  pose proof (classify_run_low b Hop) as Hland.
  destruct (inside_pass conf (flat conf x y + (Z.land (u8 b) 63 + 1)) HW
              ltac:(lia)) as [Hin' Hf].
  apply before_flat; [done|]. rewrite Hf.
  apply (before_flat conf _ x y s Hin) in Hb.
  replace (Z.to_nat (flat conf x y + (Z.land (u8 b) 63 + 1)))
    with (Z.to_nat (flat conf x y) + Z.to_nat (Z.land (u8 b) 63 + 1))%nat by lia.
  rewrite for_range_add, Hb. cbn [bind].
  by rewrite Z.add_0_l, Z2Nat.id by lia.
Qed.


(** ** What a decode consumes *)

Lemma wf_set_rd conf k r s : wf conf k s → wf conf k (set_rd r s).
Proof. intros []. by constructor. Qed.

Lemma store_set_rd p k v r s :
  store p k v (set_rd r s) = set_rd r (store p k v s).
Proof. by destruct p. Qed.

Lemma paint_set_rd o v r s : paint o v (set_rd r s) = set_rd r (paint o v s).
Proof. unfold paint. by rewrite !store_set_rd. Qed.

Lemma remember_set_rd o v r s :
  remember o v (set_rd r s) = set_rd r (remember o v s).
Proof. unfold remember. by rewrite paint_set_rd. Qed.

Lemma rd_remember o v s : rd (remember o v s) = rd s.
Proof. unfold remember. cbn [rd set_last set_seen]. unfold paint. by autorewrite with st. Qed.

Lemma buf_remember o v s : buf (remember o v s) = buf s.
Proof. unfold remember. cbn [buf set_last set_seen]. unfold paint. by autorewrite with st. Qed.

Lemma read_buf_consumed lo hi s s2 :
  (lo < hi)%nat →
  read_buf lo hi s = Ok s2 → rd s2 ≠ [] →
  ∃ c, rd s = c ++ rd s2
    ∧ ∀ r, read_buf lo hi (set_rd (c ++ r) s) = Ok (set_rd r s2).
Proof.
  intros Hlo (bs & r' & HR & ->)%read_buf_Ok Hne. cbn [rd set_buf set_rd] in *.
  unfold Read in HR. destruct (rd s) as [|b0 l] eqn:E; [done|].
  injection HR as <- <-.
  assert (length (take (hi - lo) (b0 :: l)) = (hi - lo)%nat) as Hlen.
  { rewrite length_take. apply Nat.min_l.
    destruct (decide (hi - lo ≤ length (b0 :: l))%nat); [done|].
    rewrite drop_ge in Hne by lia. done. }
  exists (take (hi - lo) (b0 :: l)). split; [by rewrite take_drop|].
  intros r. unfold read_buf, Read. cbn [rd set_rd buf].
  destruct (hi - lo)%nat as [|n] eqn:En; [lia|].
  rewrite <- En in *. clear n En.
  destruct (take (hi - lo) (b0 :: l)) as [|c0 c] eqn:Ec; [simpl in Hlen; lia|].
  cbn [app]. change (c0 :: c ++ r) with ((c0 :: c) ++ r).
  rewrite take_app_length', drop_app_length' by done.
  done.
Qed.

Lemma step_consumed conf x y s s1 :
  step conf x y s = Ok s1 → rd s1 ≠ [] →
  ∃ c, rd s = c ++ rd s1
    ∧ ∀ r, step conf x y (set_rd (c ++ r) s) = Ok (set_rd r s1).
Proof.
  unfold step. cbn [run set_rd rd]. cbv zeta.
  destruct (0 <? run s).
  { intros [= <-] _. exists []. split.
    - unfold paint. by autorewrite with st.
    - intros r. cbn [app]. unfold prev. cbn [last set_rd].
      rewrite pixel_at_set_rd. by rewrite <- paint_set_rd. }
  destruct (rd s) as [|b rest] eqn:Hrd; [done|].
  assert (∀ r r', fetched b r' (set_rd r s) = set_rd r' (fetched b rest s))
    as Hf' by done.
  unfold prev. cbn [last seen set_rd].
  destruct (classify (u8 b)) as [[]|] eqn:Hc.
  - intros (s2 & H2 & [= <-])%bind_Ok Hne. rewrite rd_remember in Hne.
    destruct (read_buf_consumed 1 4 _ _ ltac:(lia) H2 Hne) as (c & Hrest & Hall).
    change (rd (fetched b rest s)) with rest in Hrest.
    exists (b :: c). rewrite rd_remember. split; [by rewrite Hrest|].
    intros r. cbn [app]. rewrite Hc, Hf', Hall, pixel_at_set_rd.
    cbn [bind buf set_rd]. by rewrite remember_set_rd.
  - intros (s2 & H2 & [= <-])%bind_Ok Hne. rewrite rd_remember in Hne.
    destruct (read_buf_consumed 1 5 _ _ ltac:(lia) H2 Hne) as (c & Hrest & Hall).
    change (rd (fetched b rest s)) with rest in Hrest.
    exists (b :: c). rewrite rd_remember. split; [by rewrite Hrest|].
    intros r. cbn [app]. rewrite Hc, Hf', Hall.
    cbn [bind buf set_rd]. by rewrite remember_set_rd.
  - intros [= <-] _. exists [b]. cbn [rd set_last]. unfold paint.
    autorewrite with st. split; [done|]. intros r. cbn [app].
    rewrite Hc, Hf', pixel_at_set_rd.
    fold (paint (pix_of conf x y)
            (pixel_at s (seen s !!! Z.to_nat (u8 b)))
            (set_rd r (fetched b rest s))).
    by rewrite paint_set_rd.
  - intros [= <-] _. exists [b]. rewrite rd_remember. split; [done|].
    intros r. cbn [app]. by rewrite Hc, Hf', pixel_at_set_rd, remember_set_rd.
  - intros (s2 & H2 & [= <-])%bind_Ok Hne. rewrite rd_remember in Hne.
    destruct (read_buf_consumed 1 2 _ _ ltac:(lia) H2 Hne) as (c & Hrest & Hall).
    change (rd (fetched b rest s)) with rest in Hrest.
    exists (b :: c). rewrite rd_remember. split; [by rewrite Hrest|].
    intros r. cbn [app]. rewrite Hc, Hf', Hall, pixel_at_set_rd.
    cbn [bind buf set_rd]. by rewrite remember_set_rd.
  - intros [= <-] _. exists [b]. unfold paint. autorewrite with st.
    split; [done|]. intros r. cbn [app].
    rewrite Hc, Hf', pixel_at_set_rd.
    fold (paint (pix_of conf x y) (pixel_at s (last s))
            (set_run (Z.land (u8 b) 63) (set_rd r (fetched b rest s)))).
    change (set_run (Z.land (u8 b) 63) (set_rd r (fetched b rest s)))
      with (set_rd r (set_run (Z.land (u8 b) 63) (fetched b rest s))).
    by rewrite paint_set_rd.
  - intros [= <-] _. exists [b]. split; [done|]. intros r. cbn [app].
    by rewrite Hc, Hf'.
Qed.

Lemma pass_consumed conf k s s1 :
  0 ≤ Width conf → 0 ≤ k < Width conf * Height conf → wf conf k s →
  pass conf k s = Ok s1 → rd s1 ≠ [] →
  ∃ c, rd s = c ++ rd s1
    ∧ ∀ r, pass conf k (set_rd (c ++ r) s) = Ok (set_rd r s1).
Proof.
  intros HW Hk Hwf. rewrite (pass_step conf k s HW Hk Hwf).
  intros Hs Hne. destruct (step_consumed _ _ _ _ _ Hs Hne) as (c & Hc & Hall).
  exists c. split; [done|]. intros r.
  rewrite (pass_step conf k _ HW Hk (wf_set_rd conf k _ s Hwf)). apply Hall.
Qed.

Lemma passes_exhausted conf n k s s' :
  0 ≤ Width conf → 0 ≤ k → k + Z.of_nat n ≤ Width conf * Height conf →
  wf conf k s → rd s = [] →
  for_range n k (pass conf) s = Ok s' → rd s' = [].
Proof.
  intros HW Hk Hn Hwf Hrd Hs.
  refine (proj2 (for_range_inv (fun j t => wf conf j t ∧ rd t = []) n k
                   (pass conf) s s' (conj Hwf Hrd) _ Hs)).
  intros j t t' Hj Ht Hp.
  pose proof (exhausted_pass conf j t HW ltac:(lia) Ht) as H.
  by rewrite Hp in H.
Qed.

Lemma passes_consumed conf n k s s' :
  0 ≤ Width conf → 0 ≤ k → k + Z.of_nat n ≤ Width conf * Height conf →
  wf conf k s →
  for_range n k (pass conf) s = Ok s' → rd s' ≠ [] →
  ∃ c, rd s = c ++ rd s'
    ∧ ∀ r, for_range n k (pass conf) (set_rd (c ++ r) s) = Ok (set_rd r s').
Proof.
  intros HW. revert k s. induction n as [|n IH]; intros k s Hk Hn Hwf.
  - intros [= <-] _. exists []. done.
  - cbn [for_range]. intros (s1 & H1 & H2)%bind_Ok Hne.
    pose proof (pass_wf conf k s s1 HW ltac:(lia) Hwf H1) as Hwf1.
    assert (rd s1 ≠ []) as Hne1.
    { intros E. apply Hne.
      apply (passes_exhausted conf n (k + 1) s1 s'); (done || lia). }
    destruct (pass_consumed conf k s s1 HW ltac:(lia) Hwf H1 Hne1)
      as (c1 & Hc1 & Hall1).
    destruct (IH (k + 1) s1 ltac:(lia) ltac:(lia) Hwf1 H2 Hne)
      as (c2 & Hc2 & Hall2).
    exists (c1 ++ c2). split; [by rewrite Hc1, Hc2, app_assoc|].
    intros r. rewrite <- app_assoc, Hall1. cbn [bind]. apply Hall2.
Qed.

(** ** The buffer *)

Lemma read_buf_buf_ok lo hi s s2 :
  (hi ≤ 7)%nat →
  read_buf lo hi s = Ok s2 → buf_ok s → buf_ok s2.
Proof.
  intros Hhi (bs & r' & HR & ->)%read_buf_Ok [Hlen H7].
  unfold buf_ok. cbn [buf set_buf set_rd].
  unfold Read in HR. destruct (rd s) as [|b0 l]; [done|]. injection HR as <- <-.
  pose proof (length_take_le (b0 :: l) (hi - lo)) as Hbs.
  assert (length (take (hi - lo) (b0 :: l)) ≤ hi - lo)%nat as Hle
    by (rewrite length_take; lia).
  clear Hbs. set (bs := take (hi - lo) (b0 :: l)) in *.
  destruct (decide (lo ≤ hi)%nat) as [Hlo|Hlo].
  - split.
    + rewrite !length_app, length_take, length_fmap, length_drop. lia.
    + rewrite lookup_app_r by (rewrite length_take; lia).
      rewrite lookup_app_r by (rewrite length_take, length_fmap; lia).
      rewrite lookup_drop, length_take, length_fmap, <- H7. f_equal. lia.
  - assert (hi - lo = 0)%nat as E by lia. subst bs. rewrite E. cbn [take fmap list_fmap length app].
    rewrite Nat.add_0_r, take_drop. done.
Qed.

Lemma step_buf_ok conf x y s s1 :
  step conf x y s = Ok s1 → buf_ok s → buf_ok s1.
Proof.
  unfold step, buf_ok. cbv zeta. intros Hs Hok.
  destruct (0 <? run s).
  { injection Hs as <-. unfold paint. by autorewrite with st. }
  destruct (rd s) as [|b rest] eqn:Hrd; [done|].
  assert (buf_ok (fetched b rest s)) as Hok1.
  { apply (read_buf_buf_ok 0 1 s); [lia| |done].
    unfold read_buf, Read. by rewrite Hrd. }
  destruct (classify (u8 b)) as [[]|] eqn:Hc.
  - apply bind_Ok in Hs as (s2 & H2 & [= <-]). rewrite buf_remember.
    apply (read_buf_buf_ok 1 4 _ _ ltac:(lia) H2 Hok1).
  - apply bind_Ok in Hs as (s2 & H2 & [= <-]). rewrite buf_remember.
    apply (read_buf_buf_ok 1 5 _ _ ltac:(lia) H2 Hok1).
  - injection Hs as <-. cbn [buf set_last]. unfold paint. by autorewrite with st.
  - injection Hs as <-. by rewrite buf_remember.
  - apply bind_Ok in Hs as (s2 & H2 & [= <-]). rewrite buf_remember.
    apply (read_buf_buf_ok 1 2 _ _ ltac:(lia) H2 Hok1).
  - injection Hs as <-. unfold paint. by autorewrite with st.
  - by injection Hs as <-.
Qed.

Lemma b8_u8 b : b8 (u8 b) = b.
Proof. by destruct b. Qed.

Lemma b8_u8_list (bs : list byte) : b8 <$> (u8 <$> bs) = bs.
Proof.
  induction bs as [|b bs IH]; [done|].
  cbn [fmap list_fmap] in *. by rewrite b8_u8, IH.
Qed.

Lemma bytes_of_eof bs : u8 <$> bs = eof → bs = end_marker.
Proof. intros H. by rewrite <- (b8_u8_list bs), H. Qed.

Lemma check_eof_consumed s s' :
  buf_ok s → check_eof s = Ok s' →
  rd s = end_marker ++ rd s'
  ∧ ∀ r, check_eof (set_rd (end_marker ++ r) s) = Ok (set_rd r s').
Proof.
  intros [Hlen H7]. unfold check_eof.
  intros (s2 & H2 & Hd)%bind_Ok. case_decide as Heof; [|done].
  injection Hd as <-.
  apply read_buf_Ok in H2 as (bs & r' & HR & ->).
  assert (bs = take 8 (rd s) ∧ r' = drop 8 (rd s)) as [-> ->].
  { unfold Read in HR. destruct (rd s); [done|]. by injection HR as <- <-. }
  clear HR. cbn [buf set_buf set_rd rd] in *.
  rewrite take_0, app_nil_l, Nat.add_0_l in Heof.
  assert (length (take 8 (rd s)) = 8%nat) as Hbs.
  { destruct (decide (length (take 8 (rd s)) = 8%nat)) as [|Hn]; [done|].
    exfalso. assert (length (take 8 (rd s)) < 8)%nat as Hlt
      by (rewrite length_take in *; lia).
    assert (((u8 <$> take 8 (rd s)) ++ drop (length (take 8 (rd s))) (buf s))
            !! 7%nat = Some 0) as Hl.
    { rewrite lookup_app_r by (rewrite length_fmap; lia).
      rewrite lookup_drop, length_fmap, <- H7. f_equal. lia. }
    by rewrite Heof in Hl. }
  rewrite Hbs, drop_ge, app_nil_r in Heof by lia.
  apply bytes_of_eof in Heof.
  split; [by rewrite <- Heof, take_drop|].
  intros r. unfold read_buf, Read. cbn [rd set_rd buf app end_marker].
  change (x00 :: x00 :: x00 :: x00 :: x00 :: x00 :: x00 :: x01 :: r)
    with (end_marker ++ r).
  rewrite take_app_length', drop_app_length' by done. cbn [bind buf set_buf].
  cbn [take app]. rewrite Nat.add_0_l, drop_ge by (simpl; lia).
  rewrite decide_True by done. rewrite Hbs, Heof, drop_ge by lia. done.
Qed.

(** ** Accepted streams *)

Lemma passes_buf_ok conf n s s' :
  0 ≤ Width conf → Z.of_nat n ≤ Width conf * Height conf →
  wf conf 0 s → buf_ok s →
  for_range n 0 (pass conf) s = Ok s' → buf_ok s'.
Proof.
  intros HW Hn Hwf Hok Hs.
  refine (proj2 (for_range_inv (fun j t => wf conf j t ∧ buf_ok t) n 0
                   (pass conf) s s' (conj Hwf Hok) _ Hs)).
  intros j t t' Hj [Ht Hb] Hp. split.
  - apply (pass_wf conf j t); (done || lia).
  - rewrite (pass_step conf j t HW ltac:(lia) Ht) in Hp.
    by apply (step_buf_ok _ _ _ _ _ Hp).
Qed.

Lemma DecodeConfig_app input conf r' :
  DecodeConfig input = inr (conf, r') →
  ∃ hd, input = hd ++ r' ∧ length hd = 14%nat
    ∧ ∀ r, DecodeConfig (hd ++ r) = inr (conf, r).
Proof.
  intros H. destruct (decide (length input < 14)%nat) as [Hs|Hl].
  { by rewrite (DecodeConfig_short input Hs) in H. }
  destruct (split_14 input ltac:(lia))
    as (m0&m1&m2&m3&w0&w1&w2&w3&h0&h1&h2&h3&c&cs&rest&->).
  rewrite DecodeConfig_14 in H. case_decide as Hm; [|done].
  injection H as <- <-.
  exists [m0; m1; m2; m3; w0; w1; w2; w3; h0; h1; h2; h3; c; cs].
  split; [done|]. split; [done|]. intros r. cbn [app].
  rewrite DecodeConfig_14. by rewrite decide_True.
Qed.

Lemma Decode_finishes input im :
  Decode input = Image im ↔ ∃ s, finishes input s ∧ img s = im.
Proof.
  unfold Decode, Decode_from, decodePixels, finishes. split.
  - destruct (DecodeConfig input) as [e|[conf r']] eqn:Hc; [done|].
    destruct (NewNRGBA _ _) as [im0|] eqn:Him; [|done].
    destruct (bind _ _) as [s|e s|s] eqn:Hs; try done.
    cbn [returned snd]. intros [= <-]. exists s. split; [|done].
    by exists conf, r', im0.
  - intros (s & (conf & r' & im0 & -> & -> & ->) & <-). done.
Qed.

Lemma finishes_inj input s s' : finishes input s → finishes input s' → s = s'.
Proof.
  intros (conf & r' & im & Hc & Him & Hs) (conf' & r'' & im' & Hc' & Him' & Hs').
  rewrite Hc in Hc'. injection Hc' as <- <-.
  rewrite Him in Him'. injection Him' as <-.
  rewrite Hs in Hs'. by injection Hs'.
Qed.

(** An accepted stream is what the decode consumed, which ends with the
    end marker, and what it left unread; the decode does not depend on
    what it left unread. *)
Lemma finishes_consumed input s :
  finishes input s →
  ∃ pre, input = pre ++ end_marker ++ rd s
    ∧ ∀ r, finishes (pre ++ end_marker ++ r) (set_rd r s).
Proof.
  intros (conf & r' & im & Hc & Him & Hs).
  destruct (DecodeConfig_inr _ _ _ Hc) as (HW & HH & _).
  destruct (DecodeConfig_app _ _ _ Hc) as (hd & -> & _ & Hhd).
  apply bind_Ok in Hs as (s1 & H1 & H2).
  rewrite (rows_flat conf) in H1 by done.
  pose proof (init_wf conf init_globals im r' HW HH Him) as Hwf.
  assert (0 ≤ Width conf * Height conf) as HWH by nia.
  assert (buf_ok s1) as Hok.
  { apply (passes_buf_ok conf (Z.to_nat (Width conf * Height conf)) _ _ HW
             ltac:(lia) Hwf ltac:(by split) H1). }
  destruct (check_eof_consumed s1 s Hok H2) as [Hm Hall2].
  destruct (passes_consumed conf (Z.to_nat (Width conf * Height conf)) 0 _ s1
              HW ltac:(lia) ltac:(lia) Hwf H1)
    as (c & Hcs & Hall1); [by rewrite Hm|].
  change (rd (init_state init_globals im r')) with r' in Hcs.
  exists (hd ++ c). split; [by rewrite Hcs, Hm, <- !app_assoc|].
  intros r. exists conf, (c ++ end_marker ++ r), im.
  split; [by rewrite <- app_assoc|]. split; [done|].
  rewrite (rows_flat conf) by done.
  change (init_state init_globals im (c ++ end_marker ++ r))
    with (set_rd (c ++ end_marker ++ r) (init_state init_globals im r')).
  rewrite Hall1. cbn [bind]. apply Hall2.
Qed.

Lemma DecodeConfig_take input conf r' n :
  DecodeConfig input = inr (conf, r') → (14 ≤ n)%nat →
  ∃ r'', DecodeConfig (take n input) = inr (conf, r'').
Proof.
  intros H Hn. destruct (DecodeConfig_app _ _ _ H) as (hd & -> & Hhd & Hall).
  rewrite take_app_ge by lia. eauto.
Qed.

(** X13. Bytes after the end marker are ignored: a stream that decodes to
    an image decodes to the same image with any bytes appended. *)
Theorem trailing_bytes_are_ignored input tail im :
  Decode input = Image im → Decode (input ++ tail) = Image im.
Proof.
  intros (s & Hs & <-)%Decode_finishes.
  destruct (finishes_consumed input s Hs) as (pre & Hin & Hall).
  apply Decode_finishes. exists (set_rd (rd s ++ tail) s). split; [|done].
  rewrite Hin at 1. rewrite <- !app_assoc. apply Hall.
Qed.

(** X14. A stream that decodes to an image is [pre ++ end_marker ++ tail]
    where [pre ++ end_marker] decodes to the same image, and every prefix of
    the stream that stops before the end of this end marker is rejected with
    [io.EOF], [io.ErrUnexpectedEOF] or [ErrInvalidEOF]: a truncated stream
    gives no image and no panic. *)
Theorem accepted_stream_has_shortest_prefix input im :
  Decode input = Image im →
  ∃ pre tail,
    input = pre ++ end_marker ++ tail
    ∧ Decode (pre ++ end_marker) = Image im
    ∧ ∀ n, (n < length pre + 8)%nat →
        ∃ e, Decode (take n input) = Error e
          ∧ (e = EOF ∨ e = ErrUnexpectedEOF ∨ ∃ a, e = ErrInvalidEOF a).
Proof.
  intros (s & Hs & <-)%Decode_finishes.
  destruct (finishes_consumed input s Hs) as (pre & Hin & Hall).
  exists pre, (rd s). split; [done|]. split.
  { apply Decode_finishes. exists (set_rd [] s). split; [|done].
    specialize (Hall []). by rewrite app_nil_r in Hall. }
  intros n Hn.
  destruct (decide (n < 14)%nat) as [Hshort|Hlong].
  { destruct (short_header_is_unexpected_end (take n input)) as (e & He & Hu).
    - rewrite length_take. lia.
    - exists e. split; [done|]. destruct Hu; auto. }
  destruct Hs as (conf & r' & im & Hc & Him & Hrows).
  destruct (DecodeConfig_take input conf r' n Hc ltac:(lia)) as (r'' & Hc').
  destruct (Decode (take n input)) as [im'|e|] eqn:HD.
  - exfalso. apply Decode_finishes in HD as (sq & Hq & _).
    destruct (finishes_consumed _ sq Hq) as (pre' & Hq' & Hall').
    assert (pre ++ end_marker = take n input ++ drop n (pre ++ end_marker))
      as Hsplit.
    { rewrite Hin, app_assoc, take_app_le by (rewrite length_app; simpl; lia).
      by rewrite take_drop. }
    assert (drop n (pre ++ end_marker) ≠ []) as Hne.
    { intros E. apply (f_equal length) in E.
      rewrite length_drop, length_app in E. simpl in E. lia. }
    specialize (Hall []). rewrite app_nil_r, Hsplit in Hall.
    specialize (Hall' (rd sq ++ drop n (pre ++ end_marker))).
    rewrite !app_assoc in Hall'. rewrite <- (app_assoc pre') in Hall'.
    rewrite <- Hq' in Hall'.
    pose proof (f_equal rd (finishes_inj _ _ _ Hall Hall')) as E.
    cbn [rd set_rd] in E. symmetry in E. by apply app_eq_nil in E as [_ ?].
  - exists e. split; [done|].
    rewrite (Decode_inr _ _ _ Hc') in HD.
    apply decodePixels_errors in HD as [->|[a ->]]; eauto.
  - exfalso. apply Decode_panics in HD as (conf' & r3 & Hc3 & Hbig).
    rewrite Hc' in Hc3. injection Hc3 as <- <-.
    unfold NewNRGBA in Him. destruct (_ <=? _) eqn:E; [|done].
    apply Z.leb_le in E. lia.
Qed.

(** ** A stream of RGBA op-codes *)

Lemma Pix_paint o v s :
  length v = 4%nat → (o + 4 ≤ length (Pix (img s)))%nat →
  Pix (img (paint o v s))
  = take o (Pix (img s)) ++ v ++ drop (o + 4) (Pix (img s)).
Proof.
  intros Hv Ho. destruct v as [|v0 [|v1 [|v2 [|v3 [|]]]]]; try done.
  unfold paint, store. cbn [set_pixels img Pix lookup_total list_lookup_total].
  generalize dependent (Pix (img s)). intros l Hl.
  rewrite <- (take_drop o l) at 1.
  assert (length (take o l) = o) as Ht by (rewrite length_take; lia).
  destruct (drop o l) as [|x0 [|x1 [|x2 [|x3 tl]]]] eqn:Ed;
    try (apply (f_equal length) in Ed; rewrite length_drop in Ed;
         simpl in Ed; lia).
  assert (drop (o + 4) l = tl) as ->.
  { rewrite <- drop_drop, Ed. done. }
  rewrite !insert_app_r_alt by lia.
  rewrite Ht.
  replace (o + 0 - o)%nat with 0%nat by lia.
  replace (o + 1 - o)%nat with 1%nat by lia.
  replace (o + 2 - o)%nat with 2%nat by lia.
  replace (o + 3 - o)%nat with 3%nat by lia.
  done.
Qed.


Lemma run_remember o v s : run (remember o v s) = run s.
Proof. unfold remember. cbn [run set_last set_seen]. by autorewrite with st. Qed.
Lemma Pix_remember o v s :
  length v = 4%nat → (o + 4 ≤ length (Pix (img s)))%nat →
  Pix (img (remember o v s))
  = take o (Pix (img s)) ++ v ++ drop (o + 4) (Pix (img s)).
Proof. intros Hv Ho. unfold remember. cbn [img set_last set_seen]. by apply Pix_paint. Qed.

Section raw.
Context (g : globals) (conf : Config) (px : list (byte * byte * byte * byte)).
Context (tail : list byte).



End raw.



(** ** What a pixel writes *)

Lemma step_Pix conf x y s s' :
  (pix_of conf x y + 4 ≤ length (Pix (img s)))%nat →
  step conf x y s = Ok s' →
  ∃ v, length v = 4%nat
    ∧ Pix (img s')
      = take (pix_of conf x y) (Pix (img s)) ++ v
          ++ drop (pix_of conf x y + 4) (Pix (img s)).
Proof.
  intros Hfit. unfold step. cbv zeta.
  destruct (0 <? run s).
  { intros [= <-]. exists (prev s). split; [done|]. by rewrite Pix_paint. }
  destruct (rd s) as [|b rest]; [done|].
  destruct (classify (u8 b)) as [[]|] eqn:Hc.
  - intros (s2 & H2 & [= <-])%bind_Ok.
    apply read_buf_shape in H2 as (B & R & ->).
    eexists. split; [|by rewrite Pix_remember]. done.
  - intros (s2 & H2 & [= <-])%bind_Ok.
    apply read_buf_shape in H2 as (B & R & ->).
    eexists. split; [|by rewrite Pix_remember]. done.
  - intros [= <-]. eexists. split; [|cbn [img set_last]; by rewrite Pix_paint].
    done.
  - intros [= <-]. eexists. split; [|by rewrite Pix_remember]. done.
  - intros (s2 & H2 & [= <-])%bind_Ok.
    apply read_buf_shape in H2 as (B & R & ->).
    eexists. split; [|by rewrite Pix_remember]. done.
  - intros [= <-]. exists (prev s). split; [done|]. by rewrite Pix_paint.
  - by destruct (classify_total b).
Qed.

Lemma pass_Pix conf k t t' :
  0 ≤ Width conf → 0 ≤ k < Width conf * Height conf → wf conf k t →
  pass conf k t = Ok t' →
  ∃ v, length v = 4%nat
    ∧ Pix (img t')
      = take (Z.to_nat (4 * k)) (Pix (img t)) ++ v
          ++ drop (Z.to_nat (4 * k) + 4) (Pix (img t)).
Proof.
  intros HW Hk Hwf. rewrite (pass_step conf k t HW Hk Hwf).
  rewrite <- (pix_of_pass conf k HW Hk). apply step_Pix.
  rewrite (pix_of_pass conf k HW Hk). pose proof (wf_pix _ _ _ Hwf). nia.
Qed.

(** The passes after the pixel number [k] keep the bytes before it. *)
Lemma passes_keep conf n k s s' :
  0 ≤ Width conf → 0 ≤ k → k + Z.of_nat n ≤ Width conf * Height conf →
  wf conf k s →
  for_range n k (pass conf) s = Ok s' →
  take (Z.to_nat (4 * k)) (Pix (img s')) = take (Z.to_nat (4 * k)) (Pix (img s)).
Proof.
  intros HW Hk Hn Hwf Hs.
  refine (proj2 (for_range_inv
                   (fun j t => wf conf j t
                      ∧ take (Z.to_nat (4 * k)) (Pix (img t))
                        = take (Z.to_nat (4 * k)) (Pix (img s)))
                   n k (pass conf) s s' (conj Hwf eq_refl) _ Hs)).
  intros j t t' Hj [Ht Hkeep] Hp. split.
  - apply (pass_wf conf j t); (done || lia).
  - destruct (pass_Pix conf j t t' HW ltac:(lia) Ht Hp) as (v & _ & ->).
    rewrite take_app_le by (rewrite length_take; pose proof (wf_pix _ _ _ Ht); nia).
    rewrite take_take, Nat.min_l by lia. done.
Qed.

Lemma check_eof_img s s' : check_eof s = Ok s' → img s' = img s.
Proof.
  unfold check_eof. intros (s2 & H2 & Hd)%bind_Ok.
  case_decide; [|done]. injection Hd as <-.
  by apply read_buf_shape in H2 as (B & R & ->).
Qed.

(** X16. A pass through the loop body that ends without an error changes
    [img.Pix] in the four bytes of its pixel only. *)
Theorem pixel_writes_only_its_four_bytes input conf x y s s' :
  decoding input conf x y s →
  pixel x y s = Ok s' →
  ∃ v, length v = 4%nat
    ∧ Pix (img s')
      = take (pix_of conf x y) (Pix (img s)) ++ v
          ++ drop (pix_of conf x y + 4) (Pix (img s)).
Proof.
  intros Hdec. destruct (decoding_wf _ _ _ _ _ Hdec) as [Hwf Hin].
  rewrite (pixel_step conf) by done. apply step_Pix.
  apply (pix_of_fits conf x y s Hwf Hin).
Qed.

(** X17. A decoded pixel is final: the bytes of [img.Pix] up to and
    including the pixel that a pass has written are the same in the image
    that [Decode] returns. *)
Theorem decoded_pixels_are_final input conf x y s s' im :
  decoding input conf x y s →
  pixel x y s = Ok s' →
  Decode input = Image im →
  take (pix_of conf x y + 4) (Pix im) = take (pix_of conf x y + 4) (Pix (img s')).
Proof.
  intros Hdec Hp HD. destruct (decoding_wf _ _ _ _ _ Hdec) as [Hwf Hin].
  destruct Hdec as (r' & im0 & Hc & Him & Hb).
  destruct (DecodeConfig_inr _ _ _ Hc) as (HW & HH & _).
  pose proof (flat_bounds conf x y Hin) as Hk.
  apply (before_flat conf _ x y s Hin) in Hb.
  unfold Decode, Decode_from, decodePixels in HD. rewrite Hc, Him in HD.
  rewrite (rows_from_pass conf _ (flat conf x y) s HW HH ltac:(lia) Hb) in HD.
  replace (Z.to_nat (Width conf * Height conf - flat conf x y))
    with (S (Z.to_nat (Width conf * Height conf - flat conf x y - 1))) in HD
    by lia.
  cbn [for_range] in HD. rewrite (pass_flat conf x y s) in HD by apply Hin.
  rewrite Hp in HD. cbn [bind] in HD.
  destruct (for_range _ (flat conf x y + 1) (pass conf) s') as [s1| |] eqn:H1;
    try done.
  cbn [bind] in HD. destruct (check_eof s1) as [sf| |] eqn:Hf; try done.
  cbn [returned snd] in HD. injection HD as <-.
  rewrite (check_eof_img _ _ Hf).
  pose proof (pixel_wf conf x y s s' Hwf Hin Hp) as Hwf'.
  pose proof (passes_keep conf
                (Z.to_nat (Width conf * Height conf - flat conf x y - 1))
                (flat conf x y + 1) s' s1 HW ltac:(lia) ltac:(lia) Hwf' H1)
    as Hkeep.
  unfold pix_of.
  replace (Z.to_nat (4 * flat conf x y) + 4)%nat
    with (Z.to_nat (4 * (flat conf x y + 1))) by lia.
  done.
Qed.

(** ** Examples *)

Lemma store_at_decoding stream (n : nat) :
  (n < 4)%nat →
  DecodeConfig stream = inr (example_conf, drop 14 stream) →
  for_range n 0 (fun x => pixel x 0)
    (init_state init_globals example_image (drop 14 stream))
  = Ok (store_at stream n) →
  decoding stream example_conf (Z.of_nat n) 0 (store_at stream n).
Proof.
  intros Hn Hc Hrun. exists (drop 14 stream), example_image.
  split; [exact Hc|]. split; [vm_compute; reflexivity|].
  split; [unfold inside; simpl; lia|].
  exists (init_state init_globals example_image (drop 14 stream)).
  split; [reflexivity|].
  by rewrite Nat2Z.id.
Defined.

Lemma rgb_copies_three_bytes_keeps_alpha_witness :
  ∃ s', pixel 0 0 (store_at example_stream 0) = Ok s'
    ∧ pixel_at s' (PImg (pix_of example_conf 0 0)) = [u8 x0a; u8 x14; u8 x1e; 255]
    ∧ last s' = PImg (pix_of example_conf 0 0)
    ∧ rd s' = drop 18 example_stream
    ∧ run s' = 0.
Proof.
  apply (rgb_copies_three_bytes_keeps_alpha example_stream example_conf 0 0
           (store_at example_stream 0) xfe x0a x14 x1e (drop 18 example_stream)
           0 0 0 255).
  - apply (store_at_decoding example_stream 0); [lia|vm_compute; reflexivity..].
  - vm_compute. reflexivity.
  - vm_compute. reflexivity.
  - vm_compute. reflexivity.
  - vm_compute. reflexivity.
Defined.

Lemma rgba_copies_four_bytes_witness :
  ∃ s', pixel 0 0
          (init_state init_globals
             {| Pix := replicate 4 0; Stride := 4; RectX := 1; RectY := 1 |}
             (drop 14 (rgba_stream x04 x00))) = Ok s'
    ∧ pixel_at s' (PImg (pix_of {| Width := 1; Height := 1 |} 0 0))
      = [u8 x0a; u8 x14; u8 x1e; u8 xff]
    ∧ last s' = PImg (pix_of {| Width := 1; Height := 1 |} 0 0)
    ∧ rd s' = drop 19 (rgba_stream x04 x00)
    ∧ run s' = 0.
Proof.
  apply (rgba_copies_four_bytes (rgba_stream x04 x00)
           {| Width := 1; Height := 1 |} 0 0 _ xff x0a x14 x1e xff
           (drop 19 (rgba_stream x04 x00))).
  - exists (drop 14 (rgba_stream x04 x00)),
      {| Pix := replicate 4 0; Stride := 4; RectX := 1; RectY := 1 |}.
    split; [vm_compute; reflexivity|]. split; [vm_compute; reflexivity|].
    split; [unfold inside; simpl; lia|].
    eexists. split; reflexivity.
  - reflexivity.
  - reflexivity.
  - vm_compute. reflexivity.
Defined.

Lemma diff_adds_two_bit_differences_witness :
  ∃ s', pixel 3 0 (store_at run_diff_stream 3) = Ok s'
    ∧ pixel_at s' (PImg (pix_of example_conf 3 0))
      = [(10 + Z.land (Z.shiftr (u8 x7b) 4) 3 - 2) mod 256;
         (20 + Z.land (Z.shiftr (u8 x7b) 2) 3 - 2) mod 256;
         (30 + Z.land (u8 x7b) 3 - 2) mod 256; 255]
    ∧ last s' = PImg (pix_of example_conf 3 0)
    ∧ rd s' = drop 20 run_diff_stream
    ∧ run s' = 0.
Proof.
  apply (diff_adds_two_bit_differences run_diff_stream example_conf 3 0
           (store_at run_diff_stream 3) x7b (drop 20 run_diff_stream)
           10 20 30 255).
  - apply (store_at_decoding run_diff_stream 3); [lia|vm_compute; reflexivity..].
  - vm_compute. reflexivity.
  - vm_compute. reflexivity.
  - vm_compute. reflexivity.
  - vm_compute. reflexivity.
Defined.

Lemma exhausted_reader_gives_eof_witness :
  Decode (take 18 example_stream) = Error EOF.
Proof.
  apply (exhausted_reader_gives_eof (take 18 example_stream) example_conf 1 0
           (store_at (take 18 example_stream) 1)).
  - apply (store_at_decoding (take 18 example_stream) 1);
      [lia|vm_compute; reflexivity..].
  - vm_compute. reflexivity.
Defined.

Lemma run_writes_copies_of_last_pixel_witness :
  ∃ s',
    for_range (Z.to_nat (Z.land (u8 xc1) 63 + 1)) (flat example_conf 1 0)
      (pass example_conf) (store_at run_diff_stream 1)
    = Ok s'
    ∧ rd s' = drop 19 run_diff_stream
    ∧ run s' = 0
    ∧ last s' = last (store_at run_diff_stream 1)
    ∧ cache s' = cache (store_at run_diff_stream 1)
    ∧ (∀ j, flat example_conf 1 0 ≤ j
            < flat example_conf 1 0 + (Z.land (u8 xc1) 63 + 1) →
         pixel_at s' (PImg (Z.to_nat (4 * j)))
         = prev (store_at run_diff_stream 1))
    ∧ (flat example_conf 1 0 + (Z.land (u8 xc1) 63 + 1)
       < Width example_conf * Height example_conf →
       decoding run_diff_stream example_conf
         ((flat example_conf 1 0 + (Z.land (u8 xc1) 63 + 1))
            mod Width example_conf)
         ((flat example_conf 1 0 + (Z.land (u8 xc1) 63 + 1))
            / Width example_conf) s').
Proof.
  apply (run_writes_copies_of_last_pixel run_diff_stream example_conf 1 0
           (store_at run_diff_stream 1) xc1 (drop 19 run_diff_stream)).
  - apply (store_at_decoding run_diff_stream 1); [lia|vm_compute; reflexivity..].
  - vm_compute. reflexivity.
  - vm_compute. reflexivity.
  - vm_compute. reflexivity.
  - vm_compute. discriminate.
Defined.


Lemma trailing_bytes_are_ignored_witness :
  Decode (example_stream ++ [xde; xad])
  = Image {| Pix := [10; 20; 30; 255; 16; 25; 39; 255;
                     10; 20; 30; 255; 10; 20; 30; 255];
             Stride := 16; RectX := 4; RectY := 1 |}.
Proof.
  apply (trailing_bytes_are_ignored example_stream [xde; xad]).
  vm_compute. reflexivity.
Defined.

Lemma accepted_stream_has_shortest_prefix_witness :
  ∃ pre tail,
    example_stream ++ [xde; xad] = pre ++ end_marker ++ tail
    ∧ Decode (pre ++ end_marker)
      = Image {| Pix := [10; 20; 30; 255; 16; 25; 39; 255;
                         10; 20; 30; 255; 10; 20; 30; 255];
                 Stride := 16; RectX := 4; RectY := 1 |}
    ∧ ∀ n, (n < length pre + 8)%nat →
        ∃ e, Decode (take n (example_stream ++ [xde; xad])) = Error e
          ∧ (e = EOF ∨ e = ErrUnexpectedEOF ∨ ∃ a, e = ErrInvalidEOF a).
Proof.
  apply (accepted_stream_has_shortest_prefix (example_stream ++ [xde; xad])).
  vm_compute. reflexivity.
Defined.

Lemma pixel_writes_only_its_four_bytes_witness :
  ∃ v, length v = 4%nat
    ∧ Pix (img (store_at example_stream 2))
      = take (pix_of example_conf 1 0) (Pix (img (store_at example_stream 1)))
          ++ v
          ++ drop (pix_of example_conf 1 0 + 4)
               (Pix (img (store_at example_stream 1))).
Proof.
  apply (pixel_writes_only_its_four_bytes example_stream example_conf 1 0
           (store_at example_stream 1) (store_at example_stream 2)).
  - apply (store_at_decoding example_stream 1); [lia|vm_compute; reflexivity..].
  - vm_compute. reflexivity.
Defined.

Lemma decoded_pixels_are_final_witness :
  take (pix_of example_conf 1 0 + 4)
    [10; 20; 30; 255; 16; 25; 39; 255; 10; 20; 30; 255; 10; 20; 30; 255]
  = take (pix_of example_conf 1 0 + 4) (Pix (img (store_at example_stream 2))).
Proof.
  apply (decoded_pixels_are_final example_stream example_conf 1 0
           (store_at example_stream 1) (store_at example_stream 2)
           {| Pix := [10; 20; 30; 255; 16; 25; 39; 255;
                      10; 20; 30; 255; 10; 20; 30; 255];
              Stride := 16; RectX := 4; RectY := 1 |}).
  - apply (store_at_decoding example_stream 1); [lia|vm_compute; reflexivity..].
  - vm_compute. reflexivity.
  - vm_compute. reflexivity.
Defined.

(** ** The cache, written and read *)

Lemma classify_small b : 0 ≤ u8 b < 64 → classify (u8 b) = Some INDEX.
Proof. destruct b; intros [_ H]; vm_compute in H |- *; congruence. Qed.

Lemma index_step conf x y s b rest :
  wf conf (flat conf x y) s → inside conf x y →
  run s ≤ 0 → rd s = b :: rest → 0 ≤ u8 b < 64 →
  ∃ s', step conf x y s = Ok s'
    ∧ pixel_at s' (PImg (pix_of conf x y)) = cache s !!! Z.to_nat (u8 b)
    ∧ rd s' = rest.
Proof.
  intros Hwf Hin Hrun Hrd Hb. unfold step.
  rewrite (proj2 (Z.ltb_ge 0 (run s))) by lia. rewrite Hrd. cbv zeta.
  rewrite (classify_small b Hb). eexists. split; [reflexivity|].
  split; [|by autorewrite with st].
  autorewrite with st. rewrite pixel_at_paint; [|done|].
  - unfold cache. rewrite (list_lookup_total_fmap (pixel_at s) (seen s)); [done|].
    rewrite (wf_seen_len _ _ _ Hwf). lia.
  - unfold fetched. cbn [img set_buf set_rd].
    apply (pix_of_fits conf x y s Hwf Hin).
Qed.

Lemma step_keeps_run conf x y s s' o :
  kind_of s = Some (Op o) → o ≠ RUN →
  step conf x y s = Ok s' → run s' ≤ 0.
Proof.
  unfold kind_of, step. cbv zeta. destruct (0 <? run s) eqn:Hrun; [done|].
  apply Z.ltb_ge in Hrun.
  destruct (rd s) as [|b rest]; [done|].
  destruct (classify (u8 b)) as [[]|]; simpl; intros [= <-] Ho; try done.
  - intros (s2 & H2 & [= <-])%bind_Ok. rewrite run_remember.
    by apply read_buf_shape in H2 as (B & R & ->).
  - intros (s2 & H2 & [= <-])%bind_Ok. rewrite run_remember.
    by apply read_buf_shape in H2 as (B & R & ->).
  - intros [= <-]. cbn [run set_last]. by autorewrite with st.
  - intros [= <-]. by rewrite run_remember.
  - intros (s2 & H2 & [= <-])%bind_Ok. rewrite run_remember.
    by apply read_buf_shape in H2 as (B & R & ->).
Qed.

(** X18. The cache written and read: when a pass in the RGB, RGBA, DIFF or
    LUMA case has produced the pixel [p] and the next op-code byte is the
    INDEX byte [hashPix(p)], the pass that reads it produces [p] again and
    takes only this byte from the reader. *)
Theorem index_finds_the_pixel_just_cached
    input conf x y s s' o x' y' b rest :
  decoding input conf x y s →
  pixel x y s = Ok s' →
  kind_of s = Some (Op o) → o ≠ INDEX → o ≠ RUN →
  decoding input conf x' y' s' →
  rd s' = b :: rest →
  u8 b = hash (pixel_at s' (PImg (pix_of conf x y))) →
  ∃ s'', pixel x' y' s' = Ok s''
    ∧ pixel_at s'' (PImg (pix_of conf x' y'))
      = pixel_at s' (PImg (pix_of conf x y))
    ∧ rd s'' = rest.
Proof.
  intros [Hwf Hin]%decoding_wf Hp Hk Hi Hr [Hwf' Hin']%decoding_wf Hrd Hb.
  rewrite (pixel_step conf) in Hp by done.
  pose proof (step_keeps_run _ _ _ _ _ _ Hk Hr Hp) as Hrun.
  destruct (step_cache conf x y s Hwf Hin s' Hp) as (k & Hk' & Hcache).
  rewrite Hk in Hk'. injection Hk' as <-. cbv zeta in Hcache.
  assert (cache s'
          = <[Z.to_nat (hash (pixel_at s' (PImg (pix_of conf x y))))
              := pixel_at s' (PImg (pix_of conf x y))]> (cache s)) as Hc
    by (by destruct o).
  pose proof (hash_range (pixel_at s' (PImg (pix_of conf x y)))) as Hh.
  rewrite (pixel_step conf) by done.
  destruct (index_step conf x' y' s' b rest Hwf' Hin' Hrun Hrd ltac:(lia))
    as (s'' & Hs'' & Hpix & Hrest).
  exists s''. split; [done|]. split; [|done].
  rewrite Hpix, Hb, Hc. apply list_lookup_total_insert_eq.
  unfold cache. rewrite length_fmap, (wf_seen_len _ _ _ Hwf). lia.
Qed.

Lemma index_finds_the_pixel_just_cached_witness :
  ∃ s'', pixel 1 0 (store_at (take 18 example_stream ++ [x09]) 1) = Ok s''
    ∧ pixel_at s'' (PImg (pix_of example_conf 1 0))
      = pixel_at (store_at (take 18 example_stream ++ [x09]) 1)
          (PImg (pix_of example_conf 0 0))
    ∧ rd s'' = [].
Proof.
  apply (index_finds_the_pixel_just_cached (take 18 example_stream ++ [x09])
           example_conf 0 0
           (store_at (take 18 example_stream ++ [x09]) 0)
           (store_at (take 18 example_stream ++ [x09]) 1) RGB
           1 0 x09 []).
  - apply (store_at_decoding (take 18 example_stream ++ [x09]) 0);
      [lia|vm_compute; reflexivity..].
  - vm_compute. reflexivity.
  - vm_compute. reflexivity.
  - discriminate.
  - discriminate.
  - apply (store_at_decoding (take 18 example_stream ++ [x09]) 1);
      [lia|vm_compute; reflexivity..].
  - vm_compute. reflexivity.
  - vm_compute. reflexivity.
Defined.
